(** * SVD image compressor: the rank-k reconstruction pipeline of [src/App.js]

    The development embeds [compressImage] (App.js, lines 35-97): the
    synchronous compute core (grayscale projection, orientation, rank
    truncation, reconstruction, raster write) as a function in an error
    monad, and the asynchronous shell (generation counter, awaits, publish)
    as a transition system over the component state.  On top of the shell
    it embeds the handlers and the effect that call [compressImage]
    ([handleUpload], the slider's [setK], lines 99-102), the compressed
    [ImageBox], and the object URLs with the cleanup of lines 104-107.

    Conventions of the embedding.
    - A JavaScript number is a [num]: NaN, the two infinities, or a finite
      value.  A finite double is a rational number and is carried as that
      rational.  Sums and products are those of IEEE-754 binary64: the
      exact result rounded to the nearest double, a tie going to the even
      significand, an overflow to an infinity ([round64]).  The two zeros
      are one value: the program never divides and stores zero of either
      sign as the byte 0, so the sign of zero cannot be observed.
    - [undefined] read from an array in a numeric position is represented
      by [NaN], which is what arithmetic and [Math.max] turn it into.
    - A thrown exception is the [Throw] outcome of [result].
    - The npm package [numeric] is an external dependency: [numeric.svd] is
      a parameter of the pipeline; [numeric.transpose], [numeric.diag] and
      [numeric.dot] are modelled after the library. *)

From Stdlib Require Import QArith Qround Qabs Qpower Lqa Sorted.
From Stdlib Require PrimFloat FloatOps SpecFloat Uint63.
From stdpp Require Import base list strings.

Open Scope Z_scope.

(** ** JavaScript numbers *)

Inductive num : Type :=
  | NaN
  | Inf (neg : bool)
  | Fin (q : Q).

(** Nearest integer, a tie going to the even one. *)
Definition roundTiesToEven (q : Q) : Z :=
  let f := Qfloor q in
  match (q ?= inject_Z f + (1 # 2))%Q with
  | Lt => f
  | Gt => f + 1
  | Eq => if Z.even f then f else f + 1
  end.

Definition pow2 (s : Z) : Q := (2 ^ s)%Q.

(** The exponent of a positive rational: the integer [e] with
    [2^e <= q < 2^(e+1)]. *)
Definition ilog2 (q : Q) : Z :=
  if Qle_bool 1 q then Z.log2 (Qfloor q) else - Z.log2_up (Qceiling (/ q)).

(** Rounding of an exact result to binary64.  The doubles around [q] are
    the multiples of [2^(e-52)], where [e] is the exponent of [q] and at
    least -1022 (below that the doubles are subnormal and equally spaced);
    the nearest one is taken, a tie going to the even multiple, and a
    result of magnitude [2^1024], whose exponent is 1024, is an infinity. *)
Definition round64 (q : Q) : num :=
  if Qeq_bool q 0 then Fin 0
  else
    let e := Z.max (ilog2 (Qabs q)) (-1022) in
    let ulp := pow2 (e - 52) in
    let r := (inject_Z (roundTiesToEven (q / ulp)) * ulp)%Q in
    if 1024 <=? ilog2 (Qabs r) then Inf (negb (Qle_bool 0 q))
    else Fin (Qred r).

(** The finite doubles among the rationals: [m * 2^e] with an integer [m]
    of magnitude at most [2^53] and an exponent [e] of at least -1074,
    below [2^1024] in magnitude. *)
Definition binary64 (q : Q) : Prop :=
  ∃ m e : Z, Z.abs m <= 2 ^ 53 ∧ -1074 <= e
             ∧ (q == inject_Z m * pow2 e)%Q ∧ (Qabs q < pow2 1024)%Q.

(** A decimal literal of the source denotes the nearest double. *)
Definition literal (q : Q) : num := round64 q.

Arguments round64 : simpl never.
Arguments literal : simpl never.

(** [x + y] *)
Definition jadd (x y : num) : num :=
  match x, y with
  | NaN, _ | _, NaN => NaN
  | Inf a, Inf b => if Bool.eqb a b then Inf a else NaN
  | Inf a, Fin _ => Inf a
  | Fin _, Inf b => Inf b
  | Fin p, Fin q => round64 (p + q)
  end.

Definition inf_times (neg : bool) (q : Q) : num :=
  match (q ?= 0)%Q with
  | Eq => NaN
  | Lt => Inf (negb neg)
  | Gt => Inf neg
  end.

(** [x * y] *)
Definition jmul (x y : num) : num :=
  match x, y with
  | NaN, _ | _, NaN => NaN
  | Inf a, Inf b => Inf (xorb a b)
  | Inf a, Fin q => inf_times a q
  | Fin p, Inf b => inf_times b p
  | Fin p, Fin q => round64 (p * q)
  end.

(** [x < y] on numbers that are not NaN. *)
Definition jlt (x y : num) : bool :=
  match x, y with
  | NaN, _ | _, NaN => false
  | Inf a, Inf b => a && negb b
  | Inf a, Fin _ => a
  | Fin _, Inf b => negb b
  | Fin p, Fin q => match (p ?= q)%Q with Lt => true | _ => false end
  end.

(** [Math.max] and [Math.min]: NaN if either argument is NaN. *)
Definition Math_max (x y : num) : num :=
  match x, y with
  | NaN, _ | _, NaN => NaN
  | _, _ => if jlt x y then y else x
  end.

Definition Math_min (x y : num) : num :=
  match x, y with
  | NaN, _ | _, NaN => NaN
  | _, _ => if jlt y x then y else x
  end.

Definition ofZ (z : Z) : num := Fin (inject_Z z).

(** Store conversion of a [Uint8ClampedArray] element (ECMA-262
    ToUint8Clamp): NaN becomes 0, the value is clamped to [0,255], and the
    result is the nearest integer, a tie going to the even neighbour. *)
Definition clampQ (q : Q) : Q :=
  match (q ?= 0)%Q with
  | Lt => 0%Q
  | _ => match (q ?= 255)%Q with Gt => 255%Q | _ => q end
  end.

Definition ToUint8Clamp (x : num) : Z :=
  match x with
  | NaN => 0
  | Inf neg => if neg then 0 else 255
  | Fin q => roundTiesToEven (clampQ q)
  end.

(** ** Exceptions *)

Inductive exn : Type :=
  | TypeError
  | IndexSizeError
  | Error (msg : string).

Inductive result (A : Type) : Type :=
  | Ok (a : A)
  | Throw (e : exn).
Arguments Ok {A} a.
Arguments Throw {A} e.

#[export] Instance result_ret : MRet result := fun A a => Ok a.
#[export] Instance result_bind : MBind result := fun A B f m =>
  match m with
  | Ok a => f a
  | Throw e => Throw e
  end.

(** [for (let i = 0; i < n; i++) body] threading the mutated state. *)
Fixpoint forM {St : Type} (body : nat -> St -> result St) (idxs : list nat)
    (s : St) : result St :=
  match idxs with
  | [] => Ok s
  | i :: rest =>
      match body i s with
      | Ok s' => forM body rest s'
      | Throw e => Throw e
      end
  end.

Definition for_upto {St : Type} (n : nat) (body : nat -> St -> result St)
    (s : St) : result St := forM body (seq 0 n) s.

(** ** Arrays *)

Abbreviation matrix := (list (list num)).

(** [a[i]] read as a number. *)
Definition getnum (a : list num) (i : nat) : num := default NaN (a !! i).

(** [a.slice(0, e)]: a negative [e] counts from the end. *)
Definition slice0 {A : Type} (e : Z) (a : list A) : list A :=
  let len := Z.of_nat (length a) in
  let fin := if e <? 0 then Z.max (len + e) 0 else Z.min e len in
  take (Z.to_nat fin) a.

(** ** The [numeric] library

    [numeric] is an npm dependency and not part of the repository sources.
    The spec fixes what its functions compute on well-shaped matrices:
    section 4.2 the transpose, section 4.4 the diagonal matrix of the kept
    singular values and the product Uk . Sk . Vk^T.  The dispatch of
    [numeric.dot] on [numeric.dim], the accumulation order of its inner
    products and the behaviour on empty arrays follow the library
    (version 1.2.6). *)

(** What [numeric.dot] can receive or return.  The empty array has no
    rows to tell a matrix from a vector: [numeric.dim] reports one axis,
    so [Rows []] and [Vector []] are the same array.  [UndefCell] is the
    array holding one [undefined], which [numeric.transpose] returns for a
    non-empty vector. *)
Inductive tensor : Type :=
  | Scalar (x : num)
  | Vector (v : list num)
  | Rows (m : matrix)
  | UndefCell.

(** The view [numeric.dim] takes of an array. *)
Definition norm (t : tensor) : tensor :=
  match t with
  | Rows [] => Vector []
  | UndefCell => Vector [NaN]
  | _ => t
  end.

(** [ret = d0; ret += a + b] over the remaining terms two at a time, then
    the odd one: the unrolled accumulation of [dotVV] and [dotMMsmall]. *)
Fixpoint pairs_acc (acc : num) (d : list num) : num :=
  match d with
  | a :: b :: rest => pairs_acc (jadd acc (jadd a b)) rest
  | [a] => jadd acc a
  | [] => acc
  end.

(** Sum of the terms [t 0 .. t (n-1)], taken from the last one down; with
    no term the library multiplies two [undefined] and returns NaN. *)
Definition sum_down (n : nat) (t : nat -> num) : num :=
  match rev (fmap t (seq 0 n)) with
  | [] => NaN
  | d0 :: rest => pairs_acc d0 rest
  end.

(** [numeric.dotVV], over the length of its first argument. *)
Definition dotVV (x y : list num) : num :=
  sum_down (length x) (fun j => jmul (getnum x j) (getnum y j)).

(** [m[i][j]] read as a number. *)
Definition entry (m : matrix) (i j : nat) : num :=
  getnum (default [] (m !! i)) j.

(** [m[0].length] of a matrix with a first row. *)
Definition ncols (m : matrix) : nat := length (default [] (m !! 0%nat)).

(** [numeric.dotMMsmall]: the inner sum runs over the rows of [y]. *)
Definition dotMMsmall (x y : matrix) : matrix :=
  fmap (fun bar =>
         fmap (fun k => sum_down (length y)
                         (fun j => jmul (getnum bar j) (entry y j k)))
             (seq 0 (ncols y)))
      x.

(** [numeric._getCol]: column [k] of [y]. *)
Definition getCol (y : matrix) (k : nat) : list num :=
  fmap (fun row => getnum row k) y.

(** [numeric.dotMMbig]: [dotVV] of each row of [x] with each column. *)
Definition dotMMbig (x y : matrix) : matrix :=
  fmap (fun xj => fmap (fun k => dotVV xj (getCol y k)) (seq 0 (ncols y))) x.

(** [numeric.dotMV]. *)
Definition dotMV (x : matrix) (y : list num) : list num :=
  fmap (fun xi => dotVV xi y) x.

(** [dotVM] reads [y[j][k]] for every [j < x.length], and [y[-1][k]] when
    [x] is empty: a missing row throws as soon as there is a column. *)
Definition dotVM (x : list num) (y : matrix) : result (list num) :=
  if bool_decide (ncols y = 0%nat) then Ok []
  else if bool_decide (x = [] ∨ (length y < length x)%nat) then Throw TypeError
  else Ok (fmap (fun k => sum_down (length x)
                           (fun j => jmul (getnum x j) (entry y j k)))
               (seq 0 (ncols y))).

(** Modelled from the spec: the matrix product of section 4.4.  As in the
    library, the operation is chosen by the number of axes of each
    argument, matrices with fewer than ten rows on the right take the
    small-matrix loop, and a combination without an operation throws. *)
Definition dot (x y : tensor) : result tensor :=
  match norm x, norm y with
  | Rows a, Rows b =>
      Ok (Rows (if (length b <? 10)%nat then dotMMsmall a b else dotMMbig a b))
  | Rows a, Vector v => Ok (Vector (dotMV a v))
  | Vector u, Rows b => v ← dotVM u b; Ok (Vector v)
  | Vector u, Vector v => Ok (Scalar (dotVV u v))
  | Vector u, Scalar s => Ok (Vector (fmap (fun a => jmul a s) u))
  | Scalar s, Vector v => Ok (Vector (fmap (fun a => jmul s a) v))
  | Scalar s, Scalar t => Ok (Scalar (jmul s t))
  | _, _ => Throw (Error "numeric.dot only works on vectors and matrices")
  end.

(** Modelled from the spec: the transpose of section 4.2.  As in the
    library, [numeric.transpose(x)] reads [x[0].length] first, so an empty
    array throws; row [j] of the result collects [x[i][j]] over all rows. *)
Definition transpose (x : matrix) : result matrix :=
  match x with
  | [] => Throw TypeError
  | r0 :: _ => Ok (fmap (fun j => getCol x j) (seq 0 (length r0)))
  end.

(** [numeric.transpose] on whatever [numeric.dot] returned: a number has
    no [x[0]], and the entries of a vector have no [length]. *)
Definition transposeT (x : tensor) : result tensor :=
  match x with
  | Rows m => m' ← transpose m; Ok (Rows m')
  | Vector (_ :: _) => Ok UndefCell
  | _ => Throw TypeError
  end.

(** Modelled from the spec: the diagonal matrix of section 4.4,
    [numeric.diag(d)], the square matrix with [d] on its diagonal. *)
Definition diag (d : list num) : matrix :=
  imap (fun i di =>
          fmap (fun j => if bool_decide (j = i) then di else ofZ 0)
              (seq 0 (length d)))
       d.

(** The decomposition routine, [numeric.svd], is a parameter: it may
    throw, and otherwise returns the arrays [U], [S], [V] (the singular
    values are named [Sv] below, [S] being the successor of [nat]). *)
Definition svd_engine : Type := matrix -> result (matrix * list num * matrix).

(** ** The raster *)

(** [ImageData]: [data] is the [Uint8ClampedArray] of RGBA bytes. *)
Record ImageData : Type := mkImageData {
  data : list Z;
  width : nat;
  height : nat
}.

(** [data[i]] read as a number: a byte, or [undefined] past the end. *)
Definition byteAt (d : list Z) (i : nat) : num :=
  match d !! i with
  | Some b => ofZ b
  | None => NaN
  end.

(** Line 56: [0.299 * R + 0.587 * G + 0.114 * B], which JavaScript reads
    as [((0.299 * R) + (0.587 * G)) + (0.114 * B)], every product and sum
    rounded to a double. *)
Definition luminance (R G B : num) : num :=
  jadd (jadd (jmul (literal (299 # 1000)) R) (jmul (literal (587 # 1000)) G))
       (jmul (literal (114 # 1000)) B).

(** Line 56 on the doubles of the processor, for three bytes: the
    primitive floats are IEEE-754 binary64, and a decimal literal is read
    as the nearest double.  [luminance] is compared with it below. *)
Module Binary64.
Import PrimFloat.

Definition byteFloat (b : Z) : float := of_uint63 (Uint63.of_Z b).

#[local] Set Warnings "-inexact-float".
Definition luminance64 (R G B : Z) : float :=
  (0.299 * byteFloat R + 0.587 * byteFloat G + 0.114 * byteFloat B)%float.

Definition weights64 : list float := [0.299; 0.587; 0.114]%float.
#[local] Set Warnings "inexact-float".

(** The number that a primitive float stands for. *)
Definition ofFloat (f : float) : num :=
  match FloatOps.Prim2SF f with
  | SpecFloat.S754_zero _ => Fin 0
  | SpecFloat.S754_infinity s => Inf s
  | SpecFloat.S754_nan => NaN
  | SpecFloat.S754_finite s m e =>
      Fin (Qred ((if s then -1 else 1) * inject_Z (Zpos m) * pow2 e))
  end.

End Binary64.

(** Lines 54-56: the entry computed for row [r], column [c]. *)
Definition grayAt (img : ImageData) (r c : nat) : num :=
  let idx := ((r * width img + c) * 4)%nat in
  luminance (byteAt (data img) idx)
            (byteAt (data img) (idx + 1))
            (byteAt (data img) (idx + 2)).

(** Lines 52-58: the grayscale matrix. *)
Definition grayMatrix (img : ImageData) : matrix :=
  fmap (fun r => fmap (fun c => grayAt img r c) (seq 0 (width img)))
       (seq 0 (height img)).



(** ** The compute core of [compressImage] (lines 52-86) *)

(** Lines 61-62: [tall ? gray : numeric.transpose(gray)]. *)
Definition orient (tall : bool) (gray : matrix) : result matrix :=
  if tall then Ok gray else transpose gray.

(** Line 64: [mat[0].length]; reading [length] of [undefined] throws. *)
Definition firstRowLength (mat : matrix) : result nat :=
  match mat with
  | [] => Throw TypeError
  | r0 :: _ => Ok (length r0)
  end.

(** Lines 65-66: [Math.min(kValue, Math.min(m, n))]. *)
Definition effectiveRank (kValue : Z) (m n : nat) : Z :=
  Z.min kValue (Z.min (Z.of_nat m) (Z.of_nat n)).

(** Lines 70-73. *)
Definition reconstruct (U : matrix) (Sv : list num) (V : matrix) (kEff : Z)
  : result tensor :=
  let Uk := fmap (slice0 kEff) U in
  let Sk := diag (slice0 kEff Sv) in
  let VkT := fmap (slice0 kEff) V in
  VT ← transpose VkT;
  inner ← dot (Rows Sk) (Rows VT);
  dot (Rows Uk) inner.

(** Line 75: [if (!tall) recon = numeric.transpose(recon)]. *)
Definition unorient (tall : bool) (recon : tensor) : result tensor :=
  if tall then Ok recon else transposeT recon.

(** [ctx.createImageData(w, h)]: transparent black; a zero side throws. *)
Definition createImageData (w h : nat) : result ImageData :=
  if bool_decide (w = 0%nat ∨ h = 0%nat) then Throw IndexSizeError
  else Ok (mkImageData (replicate (4 * w * h) 0) w h).

(** [recon[r][c]]: indexing [undefined] throws, indexing a number gives
    [undefined]. *)
Definition cell (recon : tensor) (r c : nat) : result num :=
  match recon with
  | Rows m =>
      match m !! r with
      | Some row => Ok (getnum row c)
      | None => Throw TypeError
      end
  | Vector v =>
      match v !! r with
      | Some _ => Ok NaN
      | None => Throw TypeError
      end
  | Scalar _ | UndefCell => Throw TypeError
  end.

(** Lines 81-84, one pixel.  The chained assignment stores right to left. *)
Definition writePixel (w : nat) (recon : tensor) (r c : nat) (d : list Z)
  : result (list Z) :=
  v ← cell recon r c;
  let lum := Math_min (Math_max v (ofZ 0)) (ofZ 255) in
  let idx := ((r * w + c) * 4)%nat in
  let b := ToUint8Clamp lum in
  Ok (<[(idx + 3)%nat := 255]>
        (<[idx := b]> (<[(idx + 1)%nat := b]> (<[(idx + 2)%nat := b]> d)))).

(** Lines 78-86: the raster writer. *)
Definition writeRaster (w h : nat) (recon : tensor) : result ImageData :=
  out ← createImageData w h;
  d ← for_upto h (fun r => for_upto w (fun c => writePixel w recon r c))
                (data out);
  Ok (mkImageData d w h).

Definition isTall (img : ImageData) : bool := (width img <=? height img)%nat.

(** Lines 60-64: the matrix handed to the decomposition, with its sizes. *)
Definition prepare (img : ImageData) : result (matrix * nat * nat) :=
  mat ← orient (isTall img) (grayMatrix img);
  n ← firstRowLength mat;
  Ok (mat, length mat, n).

(** Lines 52-86. *)
Definition compressCore (svd : svd_engine) (img : ImageData) (kValue : Z)
  : result ImageData :=
  '(mat, m, n) ← prepare img;
  let kEff := effectiveRank kValue m n in
  '(U, Sv, V) ← svd mat;
  recon ← reconstruct U Sv V kEff;
  recon' ← unorient (isTall img) recon;
  writeRaster (width img) (height img) recon'.

(** ** The asynchronous shell of [compressImage] (lines 35-49, 87-96)

    JavaScript runs one job at a time: [compressImage] executes atomically
    from its call to the first [await], from there to the second, and from
    there to its end.  Each of the three segments is one event of the
    transition system; jobs of different invocations interleave freely. *)

Section Shell.

(** The host environment: uploaded files, decoding a file into its raster
    (lines 40-49: [img.decode], [drawImage], [getImageData]; [readRaster]
    builds it from a decoder), the encoder behind [canvas.toBlob], and the
    decomposition routine. *)
Context {File Blob : Type}.
Variable decodeImage : File -> result ImageData.
Variable toBlob : ImageData -> Blob.
Variable blobSize : Blob -> nat.
Variable svd : svd_engine.

(** The component state: [useState] cells and [genRef.current].  The
    empty string of [compressedURL] is [None]. *)
Record AppState : Type := mkApp {
  file : option File;
  compressedURL : option Blob;
  compSize : nat;
  isCompressing : bool;
  genRef : nat
}.

(** Where a running invocation is suspended. *)
Inductive stage : Type :=
  | AwaitDecode
  | AwaitBlob (b : Blob)
  | Settled.

(** One invocation: its locals [myGen] and [kValue], and the file whose
    URL it captured. *)
Record task : Type := mkTask {
  myGen : nat;
  kValue : Z;
  source : File;
  at_stage : stage
}.

Record system : Type := mkSystem {
  app : AppState;
  tasks : list task
}.

Inductive event : Type :=
  | Upload (f : File)
  | Invoke (k : Z)
  | Decoded (i : nat)
  | BlobReady (i : nat).

(** Lines 20-32, [handleUpload] with a file chosen. *)
Definition handleUpload (f : File) (a : AppState) : AppState :=
  mkApp (Some f) None 0%nat (isCompressing a) (genRef a).

(** Lines 36-42: the guard, [++genRef.current], [setIsCompressing(true)],
    then suspension on [img.decode()]. *)
Definition invoke (k : Z) (s : system) : system :=
  match file (app s) with
  | None => s
  | Some f =>
      let g := Datatypes.S (genRef (app s)) in
      mkSystem
        (mkApp (file (app s)) (compressedURL (app s)) (compSize (app s))
               true g)
        (tasks s ++ [mkTask g k f AwaitDecode])
  end.

(** Lines 44-89: the compute core, then [putImageData] and [toBlob].  An
    exception rejects the promise of the invocation and ends it. *)
Definition afterDecode (t : task) : task :=
  match at_stage t with
  | AwaitDecode =>
      match img ← decodeImage (source t); compressCore svd img (kValue t) with
      | Ok out => mkTask (myGen t) (kValue t) (source t) (AwaitBlob (toBlob out))
      | Throw _ => mkTask (myGen t) (kValue t) (source t) Settled
      end
  | _ => t
  end.

(** Line 91: [genRef.current !== myGen]. *)
Definition isStale (a : AppState) (t : task) : bool :=
  negb (genRef a =? myGen t)%nat.

(** Lines 91-96. *)
Definition afterBlob (a : AppState) (t : task) : AppState :=
  match at_stage t with
  | AwaitBlob b =>
      if isStale a t then a
      else mkApp (file a) (Some b) (blobSize b) false (genRef a)
  | _ => a
  end.

Definition settle (t : task) : task :=
  match at_stage t with
  | AwaitBlob _ => mkTask (myGen t) (kValue t) (source t) Settled
  | _ => t
  end.

Definition step (s : system) (e : event) : system :=
  match e with
  | Upload f => mkSystem (handleUpload f (app s)) (tasks s)
  | Invoke k => invoke k s
  | Decoded i =>
      match tasks s !! i with
      | Some t => mkSystem (app s) (<[i := afterDecode t]> (tasks s))
      | None => s
      end
  | BlobReady i =>
      match tasks s !! i with
      | Some t => mkSystem (afterBlob (app s) t) (<[i := settle t]> (tasks s))
      | None => s
      end
  end.

Definition run (s : system) (es : list event) : system := foldl step s es.

(** The generation whose result an event makes visible, if any. *)
Definition published (s : system) (e : event) : option nat :=
  match e with
  | BlobReady i =>
      match tasks s !! i with
      | Some t =>
          match at_stage t with
          | AwaitBlob _ => if isStale (app s) t then None else Some (myGen t)
          | _ => None
          end
      | None => None
      end
  | _ => None
  end.

(** The generations published along a run, oldest first. *)
Fixpoint publications (s : system) (es : list event) : list nat :=
  match es with
  | [] => []
  | e :: rest =>
      match published s e with
      | Some g => g :: publications (step s e) rest
      | None => publications (step s e) rest
      end
  end.

(** No invocation carries a generation beyond the counter. *)
Definition gens_bounded (s : system) : Prop :=
  Forall (fun t => (myGen t <= genRef (app s))%nat) (tasks s).

Definition initial : system := mkSystem (mkApp None None 0%nat false 0%nat) [].

End Shell.

(** ** Shapes *)

(** [m] rows, each of [n] entries. *)
Definition rect (m n : nat) (M : matrix) : Prop :=
  length M = m ∧ Forall (fun row => length row = n) M.

(** The shape contract of the decomposition of an [m] by [n] matrix: [U]
    is [m] by [n], there are [n] singular values, [V] is [n] by [n]. *)
Definition svd_shape (m n : nat) (U : matrix) (Sv : list num) (V : matrix)
  : Prop :=
  rect m n U ∧ length Sv = n ∧ rect n n V.

(** ** What the raster writer stores *)

(** Line 81 followed by the store into the byte array. *)
Definition lumByte (v : num) : Z :=
  ToUint8Clamp (Math_min (Math_max v (ofZ 0)) (ofZ 255)).

(** Pixel (r, c) of a raster of width [w] holds the gray level of
    [R[r][c]] in its three colour bytes and 255 in its alpha byte. *)
Definition pixel_written (d : list Z) (w : nat) (R : matrix) (r c : nat)
  : Prop :=
  let idx := ((r * w + c) * 4)%nat in
  let b := lumByte (entry R r c) in
  d !! idx = Some b ∧ d !! (idx + 1)%nat = Some b
  ∧ d !! (idx + 2)%nat = Some b ∧ d !! (idx + 3)%nat = Some 255.

(** ** The untruncated product and closeness of matrices *)

(** U . diag(S) . V^T with every component kept, computed with the same
    library calls as line 73. *)
Definition fullProduct (U : matrix) (Sv : list num) (V : matrix)
  : result tensor :=
  VT ← transpose V;
  inner ← dot (Rows (diag Sv)) (Rows VT);
  dot (Rows U) inner.

(** The reconstruction in the words of section 4.4 of the spec, for [p]
    kept components: Uk is the first [p] columns of U, Sk the diagonal
    matrix of the first [p] singular values, Vk the first [p] columns of V,
    and the result is the product Uk . Sk . Vk^T. *)
Definition spec_truncatedProduct (p : nat) (U : matrix) (Sv : list num)
    (V : matrix) : result tensor :=
  fullProduct (take p <$> U) (take p Sv) (take p <$> V).

(** Two finite numbers less than [tol] apart. *)
Definition near (tol : Q) (x y : num) : bool :=
  match x, y with
  | Fin a, Fin b =>
      match (Qabs (a - b) ?= tol)%Q with Lt => true | _ => false end
  | _, _ => false
  end.

(** Every entry of the [m] by [n] matrix [A] is [near] that of [B]. *)
Definition allclose (tol : Q) (m n : nat) (A B : matrix) : bool :=
  forallb (fun i => forallb (fun j => near tol (entry A i j) (entry B i j))
                            (seq 0 n))
          (seq 0 m).

(** ** Sample inputs *)

(** A 2 by 2 raster: one white pixel, three black ones. *)
Definition img22 : ImageData :=
  mkImageData [255; 255; 255; 255; 0; 0; 0; 255; 0; 0; 0; 255; 0; 0; 0; 255] 2 2.

(** The first [n] columns of the identity, on [m] rows. *)
Definition identity_rows (m n : nat) : matrix :=
  fmap (fun i => fmap (fun j => if bool_decide (i = j) then ofZ 1 else ofZ 0)
                      (seq 0 n))
       (seq 0 m).

(** A decomposition routine that is exact on matrices whose only non-zero
    entries are a non-negative, descending diagonal: [U] and [V] are
    identities and [S] is the diagonal. *)
Definition svd_diagonal : svd_engine := fun mat =>
  let m := length mat in
  let n := ncols mat in
  Ok (identity_rows m n, fmap (fun i => entry mat i i) (seq 0 n),
      identity_rows n n).

(** A 2 by 1 raster (wider than tall): a white pixel, then a black one. *)
Definition img21 : ImageData :=
  mkImageData [255; 255; 255; 255; 0; 0; 0; 255] 2 1.

(** What [prepare] and [svd_diagonal] give on [img21]. *)
Definition mat21 : matrix :=
  (fun j => getCol (grayMatrix img21) j) <$> seq 0 2.

Definition S21 : list num := (fun i => entry mat21 i i) <$> seq 0 1.

(** The untruncated product of that decomposition. *)
Definition product21 : matrix :=
  Eval vm_compute in
    match fullProduct (identity_rows 2 1) S21 (identity_rows 1 1) with
    | Ok (Rows P) => P
    | _ => []
    end.

(** The 256 gray levels, and a grid of 216 colours. *)
Definition gray_levels : list Z := Z.of_nat <$> seq 0 256.

Definition colour_grid : list (Z * Z * Z) :=
  let steps := (fun i => 51 * Z.of_nat i) <$> seq 0 6 in
  R ← steps; G ← steps; B ← steps; [(R, G, B)].

(** A single pixel of colour (0, 80, 110): the real number
    0.299 R + 0.587 G + 0.114 B is 59.5 for it, the double that line 56
    computes is just below. *)
Definition img_tie : ImageData := mkImageData [0; 80; 110; 255] 1 1.

(** A 2 by 2 raster with a white and a mid-gray pixel on the diagonal:
    its luminance matrix is diagonal, with the values 255 and 100. *)
Definition img_diag : ImageData :=
  mkImageData
    [255; 255; 255; 255; 0; 0; 0; 255; 0; 0; 0; 255; 100; 100; 100; 255] 2 2.

(** A host for sample runs: a file is its decoded raster, a blob is the
    raster it encodes, its size is the number of bytes of the raster. *)
Definition sample_decode : ImageData -> result ImageData := Ok.
Definition sample_toBlob : ImageData -> ImageData := fun out => out.
Definition sample_size : ImageData -> nat := fun b => length (data b).

Definition sample_step : system -> event -> system :=
  step sample_decode sample_toBlob sample_size svd_diagonal.

Definition sample_run : system -> list event -> system :=
  run sample_decode sample_toBlob sample_size svd_diagonal.

Definition sample_pubs : system -> list event -> list nat :=
  publications sample_decode sample_toBlob sample_size svd_diagonal.

(** The component as mounted, and after [img_diag] has been uploaded. *)
Definition idle : @system ImageData ImageData := initial.

Definition loaded : system := sample_step idle (Upload img_diag).

(** ** The component: state, handlers, effect and the compressed pane
    (lines 8-32, 99-102, 126, 133-137, 148-157)

    The effect of lines 99-102 depends on [k] and [file]: it runs after a
    render in which one of them changed.  It is taken to run in the job of
    the handler that changed the state, before any other job. *)

Section Component.

Context {File Blob : Type}.
Variable decodeImage : File -> result ImageData.
Variable toBlob : ImageData -> Blob.
Variable blobSize : Blob -> nat.
Variable svd : svd_engine.

(** The state of the shell together with the slider value [k] (line 11),
    named [kState] here. *)
Record component : Type := mkComponent {
  sys : @system File Blob;
  kState : Z
}.

(** What can happen to the component: the change event of the file input
    (with the chosen file, if any), the change event of the slider (line
    126, [setK(val)]), and the two resumptions of a running invocation. *)
Inductive action : Type :=
  | Choose (f : option File)
  | Slide (v : Z)
  | Resume (i : nat)
  | Finish (i : nat).

(** Lines 99-101: [if (file) compressImage(k)]. *)
Definition effectKFile (c : component) : component :=
  match file (app (sys c)) with
  | Some _ =>
      mkComponent
        (step decodeImage toBlob blobSize svd (sys c) (Invoke (kState c)))
        (kState c)
  | None => c
  end.

(** A handler followed by the effect it triggers.  Line 22 returns when no
    file was chosen; setting [k] to the value it has triggers nothing. *)
Definition act (c : component) (a : action) : component :=
  match a with
  | Choose None => c
  | Choose (Some f) =>
      effectKFile
        (mkComponent
           (step decodeImage toBlob blobSize svd (sys c) (Upload f))
           (kState c))
  | Slide v =>
      if bool_decide (v = kState c) then c
      else effectKFile (mkComponent (sys c) v)
  | Resume i =>
      mkComponent (step decodeImage toBlob blobSize svd (sys c) (Decoded i))
                  (kState c)
  | Finish i =>
      mkComponent (step decodeImage toBlob blobSize svd (sys c) (BlobReady i))
                  (kState c)
  end.

(** The component as mounted: [useState(20)] for [k]. *)
Definition mounted : component := mkComponent initial 20.

Definition play (c : component) (acts : list action) : component :=
  foldl act c acts.

(** What the second [ImageBox] renders (lines 133-137 and 148-157): the
    image when [src] is set, otherwise the placeholder, which is the text
    while [isCompressing] holds and nothing otherwise. *)
Inductive pane : Type :=
  | ShowImage (b : Blob)
  | ShowText (text : string)
  | ShowNothing.

Definition compressedPane (a : @AppState File Blob) : pane :=
  match compressedURL a with
  | Some b => ShowImage b
  | None => if isCompressing a then ShowText "Compressing…" else ShowNothing
  end.

(** The outcome of the invocation [t] once decoded: lines 44-86. *)
Definition outcome (t : @task File Blob) : result ImageData :=
  img ← decodeImage (source t); compressCore svd img (kValue t).

End Component.

(** ** Object URLs (lines 9-10, 24-31, 41, 92-95, 104-107)

    [URL.createObjectURL] returns a fresh URL each time: the n-th URL
    created is the number n.  The empty string of [origURL] and
    [compressedURL] is [None].  The cleanup of lines 104-107 belongs to
    an effect that depends on [origURL] and [compressedURL]: when a render
    changes one of them, the cleanup returned in the previous render runs,
    with the two values of that render. *)

Section ObjectURLs.

Context {File Blob : Type}.
Variable decodeImage : File -> result ImageData.
Variable toBlob : ImageData -> Blob.
Variable blobSize : Blob -> nat.
Variable svd : svd_engine.

(** The component with its two URLs, the value of [compressedURL] that
    each invocation captured when it was called, the URLs revoked so far
    (latest first) and the number of URLs created. *)
Record page : Type := mkPage {
  comp : @component File Blob;
  origURL : option nat;
  compURL : option nat;
  captured : list (option nat);
  revoked : list nat;
  created : nat
}.

(** [if (url) URL.revokeObjectURL(url)] *)
Definition revokeIf (url : option nat) (r : list nat) : list nat :=
  match url with
  | Some u => u :: r
  | None => r
  end.

(** Lines 104-107: the cleanup, on the URLs of the render it comes from. *)
Definition cleanupURLs (prevOrig prevComp : option nat) (r : list nat)
  : list nat :=
  revokeIf prevComp (revokeIf prevOrig r).

(** [handleUpload] with a file: lines 24-25 revoke the two URLs, line 28
    creates the new [origURL], line 30 empties [compressedURL]; the render
    that follows runs the cleanup of the previous one, and the effect of
    lines 99-102 calls [compressImage], which captures the emptied
    [compressedURL]. *)
Definition uploadURLs (p : page) (c' : @component File Blob) : page :=
  let r1 := revokeIf (compURL p) (revokeIf (origURL p) (revoked p)) in
  mkPage c' (Some (created p)) None (captured p ++ [None])
         (cleanupURLs (origURL p) (compURL p) r1)
         (Datatypes.S (created p)).

(** Lines 92-95 for the invocation [i]: the captured [compressedURL] is
    revoked and the URL of the blob is created; the render that follows
    runs the cleanup of the previous one. *)
Definition publishURLs (p : page) (i : nat) (c' : @component File Blob)
  : page :=
  let r1 := revokeIf (default None (captured p !! i)) (revoked p) in
  mkPage c' (origURL p) (Some (created p)) (captured p)
         (cleanupURLs (origURL p) (compURL p) r1)
         (Datatypes.S (created p)).

Definition actURLs (p : page) (a : action) : page :=
  let c' := act decodeImage toBlob blobSize svd (comp p) a in
  match a with
  | Choose None => p
  | Choose (Some _) => uploadURLs p c'
  | Slide v =>
      if bool_decide (v = kState (comp p)) then p
      else
        match file (app (sys (comp p))) with
        | Some _ =>
            mkPage c' (origURL p) (compURL p) (captured p ++ [compURL p])
                   (revoked p) (created p)
        | None =>
            mkPage c' (origURL p) (compURL p) (captured p) (revoked p)
                   (created p)
        end
  | Resume _ =>
      mkPage c' (origURL p) (compURL p) (captured p) (revoked p) (created p)
  | Finish i =>
      match published (sys (comp p)) (BlobReady i) with
      | Some _ => publishURLs p i c'
      | None =>
          mkPage c' (origURL p) (compURL p) (captured p) (revoked p)
                 (created p)
      end
  end.

Definition mountedPage : page := mkPage mounted None None [] [] 0.

Definition playURLs (p : page) (acts : list action) : page :=
  foldl actURLs p acts.

(** What holds of the URLs in every state reached. *)
Definition urls_ok (p : page) : Prop :=
  Forall (fun u => (u < created p)%nat) (revoked p)
  ∧ (∀ u, origURL p = Some u -> (u < created p)%nat)
  ∧ (∀ u, compURL p = Some u -> (u < created p)%nat ∧ u ∉ revoked p)
  ∧ Forall (fun cu => ∀ u, cu = Some u -> (u < created p)%nat) (captured p)
  ∧ (∀ u, (u < created p)%nat ->
          u ∈ revoked p ∨ origURL p = Some u ∨ compURL p = Some u)
  ∧ (∀ u, origURL p = Some u -> compURL p ≠ None -> u ∈ revoked p)
  ∧ (compURL p = None <-> compressedURL (app (sys (comp p))) = None)
  ∧ (origURL p = None <-> file (app (sys (comp p))) = None).

End ObjectURLs.

(** ** Invariants of the shell and of the component *)

Section Invariants.

Context {File Blob : Type}.
Variable decodeImage : File -> result ImageData.
Variable toBlob : ImageData -> Blob.
Variable blobSize : Blob -> nat.
Variable svd : svd_engine.

(** The invocations carry the generations 1, 2, 3, ... in the order of
    their calls, and the counter holds the last one. *)
Definition gens_indexed (s : @system File Blob) : Prop :=
  length (tasks s) = genRef (app s)
  ∧ ∀ i t, tasks s !! i = Some t -> myGen t = Datatypes.S i.

(** The blob [b] encodes a compression of the file [f], for some k. *)
Definition from_file (f : File) (b : Blob) : Prop :=
  ∃ img k out,
    decodeImage f = Ok img ∧ compressCore svd img k = Ok out ∧ b = toBlob out.

(** How the state stands to the latest invocation [t]. *)
Definition latest_agrees (a : @AppState File Blob) (t : @task File Blob)
  : Prop :=
  match at_stage t with
  | AwaitDecode => isCompressing a = true
  | AwaitBlob b =>
      isCompressing a = true
      ∧ ∃ out, outcome decodeImage svd t = Ok out ∧ b = toBlob out
  | Settled =>
      match outcome decodeImage svd t with
      | Ok out =>
          compressedURL a = Some (toBlob out)
          ∧ compSize a = blobSize (toBlob out)
          ∧ isCompressing a = false
      | Throw _ => isCompressing a = true
      end
  end.

Definition consistent (c : @component File Blob) : Prop :=
  let a := app (sys c) in
  gens_indexed (sys c)
  ∧ match file a with
    | None =>
        tasks (sys c) = [] ∧ compressedURL a = None ∧ isCompressing a = false
    | Some f =>
        (∀ b, compressedURL a = Some b ->
              from_file f b ∧ compSize a = blobSize b)
        ∧ ∃ t, tasks (sys c) !! pred (length (tasks (sys c))) = Some t
               ∧ source t = f ∧ kValue t = kState c
               ∧ latest_agrees a t
    end.

End Invariants.

(** ** Pixels of a raster *)

(** Pixel (r, c) of a raster of width [w] has the gray level [b] in its
    three colour bytes and is opaque. *)
Definition pixel_is (d : list Z) (w r c : nat) (b : Z) : Prop :=
  let idx := ((r * w + c) * 4)%nat in
  d !! idx = Some b ∧ d !! (idx + 1)%nat = Some b
  ∧ d !! (idx + 2)%nat = Some b ∧ d !! (idx + 3)%nat = Some 255.

(** What a pixel of the finished raster holds, for any reconstruction. *)
Definition pixel_from (recon : tensor) (d : list Z) (w r c : nat) : Prop :=
  ∃ v, cell recon r c = Ok v ∧ pixel_is d w r c (lumByte v).

(** The sample host's component. *)
Definition sample_mounted : @component ImageData ImageData := mounted.

Definition sample_play : component -> list action -> component :=
  play sample_decode sample_toBlob sample_size svd_diagonal.

Definition sample_page : @page ImageData ImageData := mountedPage.

Definition sample_playURLs : page -> list action -> page :=
  playURLs sample_decode sample_toBlob sample_size svd_diagonal.

(** * Properties *)

(** ** Rounding to binary64 *)

(** The nearest integer is at most 1/2 away. *)
Lemma roundTiesToEven_nearest x :
  (Qabs (inject_Z (roundTiesToEven x) - x) <= 1 # 2)%Q.
Proof.
  unfold roundTiesToEven.
  pose proof (Qfloor_le x) as Hlo. pose proof (Qlt_floor x) as Hhi.
  rewrite inject_Z_plus in Hhi. change (inject_Z 1) with 1%Q in Hhi.
  apply Qabs_Qle_condition.
  destruct (Qcompare_spec x (inject_Z (Qfloor x) + (1 # 2))) as [E|E|E].
  - destruct (Z.even (Qfloor x)).
    + split; lra.
    + rewrite inject_Z_plus. change (inject_Z 1) with 1%Q. split; lra.
  - split; lra.
  - rewrite inject_Z_plus. change (inject_Z 1) with 1%Q. split; lra.
Qed.

Lemma roundTiesToEven_bounds x :
  Qfloor x <= roundTiesToEven x <= Qfloor x + 1.
Proof.
  unfold roundTiesToEven.
  destruct (x ?= inject_Z (Qfloor x) + (1 # 2))%Q; [|lia|lia].
  destruct (Z.even (Qfloor x)); lia.
Qed.

Lemma roundTiesToEven_monotone x y :
  (x <= y)%Q -> roundTiesToEven x <= roundTiesToEven y.
Proof.
  intros Hxy. pose proof (Qfloor_resp_le _ _ Hxy) as Hf.
  pose proof (roundTiesToEven_bounds x) as Hx.
  pose proof (roundTiesToEven_bounds y) as Hy.
  destruct (decide (Qfloor x = Qfloor y)) as [E|E]; [|lia].
  unfold roundTiesToEven. rewrite <- E.
  destruct (Qcompare_spec x (inject_Z (Qfloor x) + (1 # 2))) as [C|C|C];
    destruct (Qcompare_spec y (inject_Z (Qfloor x) + (1 # 2))) as [D|D|D];
    try lra; try lia; destruct (Z.even (Qfloor x)); lia.
Qed.

Lemma roundTiesToEven_Z z : roundTiesToEven (inject_Z z) = z.
Proof.
  unfold roundTiesToEven. rewrite Qfloor_Z.
  destruct (Qcompare_spec (inject_Z z) (inject_Z z + (1 # 2))) as [C|C|C];
    [lra|done|lra].
Qed.

Lemma pow2_pos s : (0 < pow2 s)%Q.
Proof. unfold pow2. by apply Qpower_0_lt. Qed.

Lemma pow2_le a b : a <= b -> (pow2 a <= pow2 b)%Q.
Proof. intros H. unfold pow2. by apply Qpower_le_compat_l. Qed.

Lemma pow2_succ a : (pow2 (a + 1) == 2 * pow2 a)%Q.
Proof.
  unfold pow2. rewrite Qpower_plus by done. change (2 ^ 1)%Q with 2%Q. lra.
Qed.

Lemma pow2_Z a : 0 <= a -> (pow2 a == inject_Z (2 ^ a))%Q.
Proof. intros Ha. unfold pow2. by rewrite Zpower_Qpower. Qed.

Lemma pow2_opp a : (pow2 (- a) == / pow2 a)%Q.
Proof. unfold pow2. apply Qpower_opp. Qed.

(** [ilog2 q] is the exponent of [q]. *)
Lemma ilog2_spec q :
  (0 < q)%Q -> (pow2 (ilog2 q) <= q)%Q ∧ (q < pow2 (ilog2 q + 1))%Q.
Proof.
  intros Hq. unfold ilog2.
  destruct (Qle_bool 1 q) eqn:H1.
  - apply Qle_bool_iff in H1.
    assert (Hf1 : 1 <= Qfloor q).
    { change 1 with (Qfloor 1). by apply Qfloor_resp_le. }
    destruct (Z.log2_spec (Qfloor q)) as [L1 L2]; [lia|].
    pose proof (Z.log2_nonneg (Qfloor q)) as L0.
    pose proof (Qfloor_le q) as F1. pose proof (Qlt_floor q) as F2.
    rewrite !pow2_Z by lia. split.
    + rewrite Zle_Qle in L1. lra.
    + assert (L3 : Qfloor q + 1 <= 2 ^ (Z.log2 (Qfloor q) + 1))
        by (unfold Z.succ in L2; lia).
      rewrite Zle_Qle in L3. lra.
  - assert (Hlt : (q < 1)%Q).
    { apply Qnot_le_lt. intros Hle. apply Qle_bool_iff in Hle. congruence. }
    assert (Hinv : (1 < / q)%Q).
    { apply Qlt_shift_inv_l; lra. }
    assert (Hqi : (q * / q == 1)%Q) by (apply Qmult_inv_r; lra).
    pose proof (Qle_ceiling (/ q)) as C1. pose proof (Qceiling_lt (/ q)) as C2.
    set (c := Qceiling (/ q)) in *. set (iq := (/ q)%Q) in *.
    clearbody c. clearbody iq.
    assert (Hc : 1 < c).
    { rewrite Zlt_Qlt. change (inject_Z 1) with 1%Q.
      eapply Qlt_le_trans; [exact Hinv|exact C1]. }
    destruct (Z.log2_up_spec c Hc) as [U1 U2].
    pose proof (Z.log2_up_nonneg c) as U0.
    set (u := Z.log2_up c) in *. clearbody u.
    assert (Hu : 0 < u).
    { destruct (decide (u = 0)) as [E|E]; [|lia]. rewrite E in U2. simpl in U2. lia. }
    split.
    + rewrite pow2_opp, pow2_Z by lia.
      rewrite Zle_Qle in U2.
      assert (P : (0 < inject_Z (2 ^ u))%Q) by lra.
      apply Qle_shift_inv_r; [done|]. nra.
    + replace (- u + 1) with (- (u - 1)) by lia.
      rewrite pow2_opp, pow2_Z by lia.
      assert (U1' : 2 ^ (u - 1) <= c - 1).
      { replace (u - 1) with (Z.pred u) by lia. lia. }
      rewrite Zle_Qle in U1'.
      assert (P : (0 < inject_Z (2 ^ (u - 1)))%Q).
      { rewrite <- pow2_Z by lia. apply pow2_pos. }
      apply Qlt_shift_inv_l; [done|]. nra.
Qed.

(** The exponent of a value below [2^k] is below [k]. *)
Lemma ilog2_lt q k : 1 <= k -> (q < pow2 k)%Q -> ilog2 q < k.
Proof.
  intros Hk Hq. unfold ilog2.
  destruct (Qle_bool 1 q) eqn:H1.
  - apply Qle_bool_iff in H1.
    assert (Hf1 : 1 <= Qfloor q).
    { change 1 with (Qfloor 1). by apply Qfloor_resp_le. }
    apply Z.log2_lt_pow2; [lia|].
    rewrite Zlt_Qlt. rewrite Zpower_Qpower by lia.
    pose proof (Qfloor_le q). unfold pow2 in Hq. change (inject_Z 2) with 2%Q. lra.
  - pose proof (Z.log2_up_nonneg (Qceiling (/ q))). lia.
Qed.

(** What [round64] returns for a value that is not zero: with [e] the
    exponent of [q], at least -1022, the result is the multiple
    [m * 2^(e-52)] nearest to [q], at most half of [2^(e-52)] away, where
    [m] is an integer of magnitude at most [2^53]; when that multiple
    reaches [2^1024] in magnitude the result is the infinity of the sign of
    [q]. *)
Lemma round64_spec q :
  ¬ (q == 0)%Q ->
  let e := Z.max (ilog2 (Qabs q)) (-1022) in
  let m := roundTiesToEven (q / pow2 (e - 52)) in
  let r := (inject_Z m * pow2 (e - 52))%Q in
  Z.abs m <= 2 ^ 53
  ∧ (Qabs (r - q) <= pow2 (e - 53))%Q
  ∧ round64 q = (if Qle_bool (pow2 1024) (Qabs r)
                 then Inf (negb (Qle_bool 0 q)) else Fin (Qred r)).
Proof.
  intros Hq e m r.
  assert (Hulp : (0 < pow2 (e - 52))%Q) by apply pow2_pos.
  assert (Habs : (0 < Qabs q)%Q).
  { destruct (Qlt_le_dec 0 (Qabs q)) as [H|H]; [done|].
    pose proof (Qabs_nonneg q). exfalso. apply Hq.
    apply Qabs_Qle_condition in H. lra. }
  destruct (ilog2_spec (Qabs q) Habs) as [L1 L2].
  assert (He : ilog2 (Qabs q) <= e) by (subst e; lia).
  assert (Hup : (Qabs q < pow2 (e + 1))%Q).
  { eapply Qlt_le_trans; [exact L2|]. apply pow2_le. lia. }
  assert (H53 : (pow2 (e + 1) == inject_Z (2 ^ 53) * pow2 (e - 52))%Q).
  { rewrite <- pow2_Z by lia. unfold pow2. rewrite <- Qpower_plus by done.
    by replace (53 + (e - 52)) with (e + 1) by lia. }
  assert (Hhalf : (pow2 (e - 52) == 2 * pow2 (e - 53))%Q).
  { rewrite <- pow2_succ. by replace (e - 53 + 1) with (e - 52) by lia. }
  set (ulp := pow2 (e - 52)) in *.
  assert (Hq' : (q == (q / ulp) * ulp)%Q) by (field; lra).
  set (x := (q / ulp)%Q) in *.
  split.
  { apply Qabs_Qlt_condition in Hup as [U1 U2].
    assert (X1 : (- inject_Z (2 ^ 53) <= x)%Q) by nra.
    assert (X2 : (x <= inject_Z (2 ^ 53))%Q) by nra.
    assert (X1' : (inject_Z (- 2 ^ 53) <= x)%Q) by (rewrite inject_Z_opp; lra).
    apply roundTiesToEven_monotone in X1', X2.
    rewrite roundTiesToEven_Z in X1', X2. fold m in X1', X2. lia. }
  split.
  { pose proof (roundTiesToEven_nearest x) as Hn. fold m in Hn.
    apply Qabs_Qle_condition in Hn as [Hn1 Hn2].
    apply Qabs_Qle_condition. subst r. split; nra. }
  unfold round64.
  destruct (Qeq_bool q 0) eqn:Hz; [by apply Qeq_bool_iff in Hz|].
  fold e. fold ulp. fold x. fold m. fold r.
  destruct (Qlt_le_dec 0 (Qabs r)) as [Hr|Hr].
  - destruct (ilog2_spec (Qabs r) Hr) as [R1 R2].
    destruct (Z.leb_spec 1024 (ilog2 (Qabs r))) as [Hbig|Hsmall].
    + assert (Qle_bool (pow2 1024) (Qabs r) = true) as ->; [|done].
      apply Qle_bool_iff.
      eapply Qle_trans; [|exact R1]. by apply pow2_le.
    + assert (Qle_bool (pow2 1024) (Qabs r) = false) as ->; [|done].
      destruct (Qle_bool (pow2 1024) (Qabs r)) eqn:Hov; [|done].
      apply Qle_bool_iff in Hov. exfalso.
      assert (pow2 (ilog2 (Qabs r) + 1) <= pow2 1024)%Q by (apply pow2_le; lia).
      lra.
  - assert (Hr0 : (Qabs r == 0)%Q) by (pose proof (Qabs_nonneg r); lra).
    assert (E1 : Qle_bool (pow2 1024) (Qabs r) = false).
    { destruct (Qle_bool (pow2 1024) (Qabs r)) eqn:Hov; [|done].
      apply Qle_bool_iff in Hov. pose proof (pow2_pos 1024). lra. }
    rewrite E1.
    assert (E2 : (1024 <=? ilog2 (Qabs r)) = false).
    { apply Z.leb_gt, ilog2_lt; [lia|]. pose proof (pow2_pos 1024). lra. }
    by rewrite E2.
Qed.

(** Below [2^k] the doubles are at most [2^(k-53)] apart, so rounding moves
    a value by at most [2^(k-54)]; no overflow occurs. *)
Lemma round64_near q k :
  1 <= k <= 1023 -> (Qabs q < pow2 k)%Q ->
  ∃ r, round64 q = Fin r ∧ (Qabs (r - q) <= pow2 (k - 54))%Q.
Proof.
  intros Hk Hq. unfold round64.
  destruct (Qeq_bool q 0) eqn:Hz.
  { apply Qeq_bool_iff in Hz. exists 0%Q. split; [done|].
    pose proof (pow2_pos (k - 54)).
    apply Qabs_Qle_condition. split; lra. }
  set (e := Z.max (ilog2 (Qabs q)) (-1022)).
  set (ulp := pow2 (e - 52)).
  set (m := roundTiesToEven (q / ulp)).
  assert (He : e <= k - 1).
  { pose proof (ilog2_lt (Qabs q) k ltac:(lia) Hq). lia. }
  assert (Hulp : (0 < ulp)%Q) by apply pow2_pos.
  assert (Hulp' : (ulp <= 2 * pow2 (k - 54))%Q).
  { rewrite <- pow2_succ. apply pow2_le. lia. }
  assert (Herr : (Qabs (inject_Z m * ulp - q) <= pow2 (k - 54))%Q).
  { pose proof (roundTiesToEven_nearest (q / ulp)) as Hn. fold m in Hn.
    assert (Hq' : (q == (q / ulp) * ulp)%Q) by (field; lra).
    apply Qabs_Qle_condition in Hn as [Hn1 Hn2].
    apply Qabs_Qle_condition.
    set (x := (q / ulp)%Q) in *.
    split; nra. }
  assert (Hbig : (pow2 k + pow2 (k - 54) < pow2 1024)%Q).
  { assert (pow2 (k - 54) < pow2 k)%Q
      by (unfold pow2; apply Qpower_lt_compat_l; [lia|done]).
    assert (pow2 (k + 1) <= pow2 1024)%Q by (apply pow2_le; lia).
    pose proof (pow2_succ k). lra. }
  assert (Hov : (1024 <=? ilog2 (Qabs (inject_Z m * ulp))) = false).
  { apply Z.leb_gt, ilog2_lt; [lia|].
    apply Qabs_Qle_condition in Herr as [E1 E2].
    apply Qabs_Qlt_condition in Hq as [Q1 Q2].
    apply Qabs_Qlt_condition. split; lra. }
  rewrite Hov.
  eexists. split; [done|]. by rewrite Qred_correct.
Qed.

(** Every finite result of a rounding is a double, and so is every
    finite sum and product. *)
Lemma round64_binary64 q r : round64 q = Fin r -> binary64 r.
Proof.
  intros Hr. destruct (Qeq_dec q 0) as [Hz|Hnz].
  - unfold round64 in Hr. rewrite (proj2 (Qeq_bool_iff q 0) Hz) in Hr.
    injection Hr as <-. exists 0, 0.
    split; [done|]. split; [done|]. split; [done|]. apply pow2_pos.
  - destruct (round64_spec q Hnz) as (Hm & _ & Hdef).
    rewrite Hdef in Hr.
    set (e := Z.max (ilog2 (Qabs q)) (-1022)) in *.
    set (m := roundTiesToEven (q / pow2 (e - 52))) in *.
    destruct (Qle_bool (pow2 1024) (Qabs (inject_Z m * pow2 (e - 52))))
      eqn:Hov; [done|].
    injection Hr as <-. exists m, (e - 52).
    split; [done|]. split; [lia|]. split; [apply Qred_correct|].
    rewrite Qred_correct. apply Qnot_le_lt. intros Hle.
    apply Qle_bool_iff in Hle. congruence.
Qed.

Lemma jadd_binary64 x y q : jadd x y = Fin q -> binary64 q.
Proof.
  destruct x as [|a|p], y as [|b|p']; simpl; try done.
  - by destruct (Bool.eqb a b).
  - apply round64_binary64.
Qed.

Lemma jmul_binary64 x y q : jmul x y = Fin q -> binary64 q.
Proof.
  destruct x as [|a|p], y as [|b|p']; simpl; try done.
  - unfold inf_times. by destruct (p' ?= 0)%Q.
  - unfold inf_times. by destruct (p ?= 0)%Q.
  - apply round64_binary64.
Qed.

(** The three weights as doubles. *)
Lemma literal_weights :
  literal (299 # 1000) = Fin (5386305154335113 # 18014398509481984)
  ∧ literal (587 # 1000) = Fin (2643612981266481 # 4503599627370496)
  ∧ literal (114 # 1000) = Fin (8214565720323785 # 72057594037927936).
Proof. vm_compute. done. Qed.

Lemma luminance_near (R G B : Z) :
  0 <= R <= 255 -> 0 <= G <= 255 -> 0 <= B <= 255 ->
  ∃ q, luminance (ofZ R) (ofZ G) (ofZ B) = Fin q
       ∧ (Qabs (q - ((299 # 1000) * inject_Z R + (587 # 1000) * inject_Z G
                     + (114 # 1000) * inject_Z B))
          <= 1 # 8796093022208)%Q.
Proof.
  intros [HR1 HR2] [HG1 HG2] [HB1 HB2].
  rewrite Zle_Qle in HR1, HR2, HG1, HG2, HB1, HB2.
  change (inject_Z 0) with 0%Q in *. change (inject_Z 255) with 255%Q in *.
  destruct literal_weights as (W1 & W2 & W3).
  unfold luminance, ofZ. rewrite W1, W2, W3. cbn [jmul].
  set (r := inject_Z R) in *. set (g := inject_Z G) in *.
  set (b := inject_Z B) in *.
  destruct (round64_near ((5386305154335113 # 18014398509481984) * r) 7)
    as (p1 & -> & E1); [lia| |].
  { apply Qabs_Qlt_condition. change (pow2 7) with 128%Q. split; lra. }
  destruct (round64_near ((2643612981266481 # 4503599627370496) * g) 8)
    as (p2 & -> & E2); [lia| |].
  { apply Qabs_Qlt_condition. change (pow2 8) with 256%Q. split; lra. }
  destruct (round64_near ((8214565720323785 # 72057594037927936) * b) 5)
    as (p3 & -> & E3); [lia| |].
  { apply Qabs_Qlt_condition. change (pow2 5) with 32%Q. split; lra. }
  assert (P7 : (pow2 (7 - 54) == 1 # 140737488355328)%Q) by (vm_compute; done).
  assert (P8 : (pow2 (8 - 54) == 1 # 70368744177664)%Q) by (vm_compute; done).
  assert (P5 : (pow2 (5 - 54) == 1 # 562949953421312)%Q) by (vm_compute; done).
  assert (P9 : (pow2 (9 - 54) == 1 # 35184372088832)%Q) by (vm_compute; done).
  rewrite P7 in E1. rewrite P8 in E2. rewrite P5 in E3.
  apply Qabs_Qle_condition in E1 as [E1a E1b].
  apply Qabs_Qle_condition in E2 as [E2a E2b].
  apply Qabs_Qle_condition in E3 as [E3a E3b].
  cbn [jadd].
  destruct (round64_near (p1 + p2) 8) as (s1 & -> & E4); [lia| |].
  { apply Qabs_Qlt_condition. change (pow2 8) with 256%Q. split; lra. }
  rewrite P8 in E4. apply Qabs_Qle_condition in E4 as [E4a E4b].
  cbn [jadd].
  destruct (round64_near (s1 + p3) 9) as (s2 & -> & E5); [lia| |].
  { apply Qabs_Qlt_condition. change (pow2 9) with 512%Q. split; lra. }
  rewrite P9 in E5. apply Qabs_Qle_condition in E5 as [E5a E5b].
  exists s2. split; [done|].
  apply Qabs_Qle_condition. split; lra.
Qed.

(** [luminance] against the doubles of the processor: the two agree on
    every gray pixel, on a grid of colours, and at the colour (0, 80, 110),
    where the real number 59.5 is not what line 56 computes. *)
Lemma literal_binary64 :
  literal <$> [299 # 1000; 587 # 1000; 114 # 1000]
  = Binary64.ofFloat <$> Binary64.weights64.
Proof. vm_compute. reflexivity. Qed.

Lemma luminance_binary64_gray :
  (fun v => luminance (ofZ v) (ofZ v) (ofZ v)) <$> gray_levels
  = (fun v => Binary64.ofFloat (Binary64.luminance64 v v v)) <$> gray_levels.
Proof. vm_compute. reflexivity. Qed.

Lemma luminance_binary64_grid :
  (fun '(R, G, B) => luminance (ofZ R) (ofZ G) (ofZ B)) <$> colour_grid
  = (fun '(R, G, B) => Binary64.ofFloat (Binary64.luminance64 R G B))
      <$> colour_grid.
Proof. vm_compute. reflexivity. Qed.

Lemma luminance_samples :
  luminance (ofZ 0) (ofZ 80) (ofZ 110)
  = Fin (8373880557142015 # 140737488355328)
  ∧ luminance (ofZ 0) (ofZ 80) (ofZ 110)
    = Binary64.ofFloat (Binary64.luminance64 0 80 110)
  ∧ luminance (ofZ 1) (ofZ 1) (ofZ 1)
    = Fin (9007199254740991 # 9007199254740992)
  ∧ luminance (ofZ 255) (ofZ 255) (ofZ 255) = Fin 255
  ∧ luminance (ofZ 100) (ofZ 100) (ofZ 100) = Fin 100
  ∧ ToUint8Clamp (luminance (ofZ 0) (ofZ 80) (ofZ 110)) = 59.
Proof. vm_compute. repeat split. Qed.

(** ** Luminance projection *)

Lemma grayMatrix_length img : length (grayMatrix img) = height img.
Proof. unfold grayMatrix. by rewrite length_fmap, length_seq. Qed.

Lemma grayMatrix_row img r :
  (r < height img)%nat ->
  grayMatrix img !! r
  = Some (fmap (fun c => grayAt img r c) (seq 0 (width img))).
Proof.
  intros Hr. unfold grayMatrix.
  by rewrite list_lookup_fmap, lookup_seq_lt.
Qed.

Lemma grayMatrix_rows_width img row :
  row ∈ grayMatrix img -> length row = width img.
Proof.
  unfold grayMatrix. intros Hin.
  apply list_elem_of_fmap in Hin as (r & -> & _).
  by rewrite length_fmap, length_seq.
Qed.

Lemma grayMatrix_entry img r c :
  (r < height img)%nat -> (c < width img)%nat ->
  entry (grayMatrix img) r c = grayAt img r c.
Proof.
  intros Hr Hc. unfold entry, getnum.
  rewrite grayMatrix_row by done. simpl.
  by rewrite list_lookup_fmap, lookup_seq_lt.
Qed.

Lemma grayMatrix_rect img : rect (height img) (width img) (grayMatrix img).
Proof.
  split; [apply grayMatrix_length|].
  apply Forall_forall. intros row. apply grayMatrix_rows_width.
Qed.

Lemma byteAt_insert_ne (d : list Z) i j a :
  i ≠ j -> byteAt (<[i := a]> d) j = byteAt d j.
Proof. intros Hne. unfold byteAt. by rewrite list_lookup_insert_ne. Qed.

Lemma grayAt_alpha img p a r c :
  grayAt (mkImageData (<[(4 * p + 3)%nat := a]> (data img))
                      (width img) (height img)) r c
  = grayAt img r c.
Proof.
  unfold grayAt. simpl.
  rewrite !byteAt_insert_ne by lia. done.
Qed.

(** C4.  For a raster of bytes the luminance matrix has one row per raster
    row and one entry per raster column; the entry at row r, column c is
    [0.299 * R + 0.587 * G + 0.114 * B] of the colour bytes of pixel
    (r, c), evaluated as line 56 evaluates it: the weights are the doubles
    nearest to the decimals, and each product and each sum, from left to
    right, is rounded to a double.  The entry is a finite double within
    2^-43 of the real number 0.299 R + 0.587 G + 0.114 B.  Overwriting the
    alpha byte of any pixel leaves the whole matrix unchanged. *)
Theorem luminance_projector_spec (img : ImageData) (r c : nat) :
  (r < height img)%nat -> (c < width img)%nat ->
  length (data img) = (4 * width img * height img)%nat ->
  Forall (fun b => 0 <= b <= 255) (data img) ->
  rect (height img) (width img) (grayMatrix img)
  ∧ (∃ row R G B q,
        grayMatrix img !! r = Some row
        ∧ length row = width img
        ∧ data img !! ((r * width img + c) * 4)%nat = Some R
        ∧ data img !! ((r * width img + c) * 4 + 1)%nat = Some G
        ∧ data img !! ((r * width img + c) * 4 + 2)%nat = Some B
        ∧ row !! c
          = Some (jadd (jadd (jmul (literal (299 # 1000)) (ofZ R))
                             (jmul (literal (587 # 1000)) (ofZ G)))
                       (jmul (literal (114 # 1000)) (ofZ B)))
        ∧ row !! c = Some (Fin q)
        ∧ binary64 q
        ∧ (Qabs (q - ((299 # 1000) * inject_Z R + (587 # 1000) * inject_Z G
                      + (114 # 1000) * inject_Z B))
           <= 1 # 8796093022208)%Q)
  ∧ (∀ p a,
        grayMatrix (mkImageData (<[(4 * p + 3)%nat := a]> (data img))
                                (width img) (height img))
        = grayMatrix img).
Proof.
  intros Hr Hc Hlen Hbytes. split; [apply grayMatrix_rect|]. split.
  - assert (Hidx : ((r * width img + c) * 4 + 3 < length (data img))%nat).
    { rewrite Hlen. nia. }
    destruct (lookup_lt_is_Some_2 (data img) ((r * width img + c) * 4)%nat)
      as [R HR]; [lia|].
    destruct (lookup_lt_is_Some_2 (data img) ((r * width img + c) * 4 + 1)%nat)
      as [G HG]; [lia|].
    destruct (lookup_lt_is_Some_2 (data img) ((r * width img + c) * 4 + 2)%nat)
      as [B HB]; [lia|].
    destruct (luminance_near R G B) as (q & Hq & Hnear);
      [by eapply (proj1 (Forall_lookup _ _) Hbytes)..|].
    assert (Hentry : ((fun c => grayAt img r c) <$> seq 0 (width img)) !! c
                     = Some (luminance (ofZ R) (ofZ G) (ofZ B))).
    { rewrite list_lookup_fmap, lookup_seq_lt by done.
      unfold grayAt, byteAt. cbn [fmap option_fmap option_map Nat.add].
      by rewrite HR, HG, HB. }
    eexists _, R, G, B, q. split; [by apply grayMatrix_row|].
    split; [by rewrite length_fmap, length_seq|].
    do 3 (split; [done|]).
    split; [exact Hentry|]. split; [by rewrite Hentry, Hq|].
    split; [|exact Hnear]. by apply (jadd_binary64 _ _ _ Hq).
  - intros p a. unfold grayMatrix. simpl.
    apply list_fmap_ext. intros _ r' _.
    apply list_fmap_ext. intros _ c' _.
    apply grayAt_alpha.
Qed.

(** The pixel (0, 80, 110): the entry is 8373880557142015 / 2^47, the
    double below 59.5. *)
Lemma luminance_projector_spec_witness :
  grayMatrix img_tie = [[Fin (8373880557142015 # 140737488355328)]]
  ∧ rect (height img_tie) (width img_tie) (grayMatrix img_tie)
  ∧ (∃ row R G B q,
        grayMatrix img_tie !! 0%nat = Some row
        ∧ length row = width img_tie
        ∧ data img_tie !! ((0 * width img_tie + 0) * 4)%nat = Some R
        ∧ data img_tie !! ((0 * width img_tie + 0) * 4 + 1)%nat = Some G
        ∧ data img_tie !! ((0 * width img_tie + 0) * 4 + 2)%nat = Some B
        ∧ row !! 0%nat
          = Some (jadd (jadd (jmul (literal (299 # 1000)) (ofZ R))
                             (jmul (literal (587 # 1000)) (ofZ G)))
                       (jmul (literal (114 # 1000)) (ofZ B)))
        ∧ row !! 0%nat = Some (Fin q)
        ∧ binary64 q
        ∧ (Qabs (q - ((299 # 1000) * inject_Z R + (587 # 1000) * inject_Z G
                      + (114 # 1000) * inject_Z B))
           <= 1 # 8796093022208)%Q)
  ∧ (∀ p a,
        grayMatrix (mkImageData (<[(4 * p + 3)%nat := a]> (data img_tie))
                                (width img_tie) (height img_tie))
        = grayMatrix img_tie).
Proof.
  split; [vm_compute; reflexivity|].
  apply (luminance_projector_spec img_tie 0 0); simpl;
    [lia | lia | reflexivity | repeat constructor; lia].
Defined.

(** ** Transposition *)

Lemma rect_lookup m n (M : matrix) i row :
  rect m n M -> M !! i = Some row -> length row = n.
Proof.
  intros [_ Hall] Hi. by eapply (proj1 (Forall_lookup _ _) Hall).
Qed.

Lemma getnum_tabulate (row : list num) :
  (fun j => getnum row j) <$> seq 0 (length row) = row.
Proof.
  apply list_eq. intros j. rewrite list_lookup_fmap.
  destruct (decide (j < length row)%nat) as [Hj|Hj].
  - rewrite lookup_seq_lt by done. simpl. unfold getnum.
    destruct (lookup_lt_is_Some_2 row j Hj) as [x Hx]. by rewrite Hx.
  - rewrite lookup_seq_ge by lia. by rewrite lookup_ge_None_2 by lia.
Qed.

Lemma getCol_length (M : matrix) j : length (getCol M j) = length M.
Proof. unfold getCol. by rewrite length_fmap. Qed.

Lemma getCol_getnum (M : matrix) i j : getnum (getCol M j) i = entry M i j.
Proof.
  unfold getCol, entry, getnum. rewrite list_lookup_fmap.
  by destruct (M !! i).
Qed.

Lemma transpose_ok (M : matrix) m n :
  rect m n M -> (0 < m)%nat ->
  transpose M = Ok ((fun j => getCol M j) <$> seq 0 n).
Proof.
  intros HM Hm. destruct M as [|r0 M'].
  - destruct HM as [Hlen _]. simpl in Hlen. lia.
  - unfold transpose. by rewrite (rect_lookup m n (r0 :: M') 0 r0 HM eq_refl).
Qed.

Lemma transposed_rect (M : matrix) m n :
  rect m n M -> rect n m ((fun j => getCol M j) <$> seq 0 n).
Proof.
  intros [Hlen _]. split.
  - by rewrite length_fmap, length_seq.
  - apply Forall_fmap, Forall_forall. intros j _. simpl.
    by rewrite getCol_length.
Qed.

Lemma transposed_entry (M : matrix) m n i j :
  rect m n M ->
  entry ((fun j => getCol M j) <$> seq 0 n) j i = entry M i j.
Proof.
  intros HM. unfold entry at 1. rewrite list_lookup_fmap.
  destruct (decide (j < n)%nat) as [Hj|Hj].
  - rewrite lookup_seq_lt by done. simpl. apply getCol_getnum.
  - rewrite lookup_seq_ge by lia. simpl. unfold entry, getnum.
    destruct (M !! i) as [row|] eqn:Hrow; simpl; [|done].
    rewrite lookup_ge_None_2; [done|].
    rewrite (rect_lookup _ _ _ _ _ HM Hrow). lia.
Qed.

Lemma matrix_ext (A B : matrix) m n :
  rect m n A -> rect m n B ->
  (∀ i j, entry A i j = entry B i j) -> A = B.
Proof.
  intros HA HB Hent. apply list_eq. intros i.
  destruct (A !! i) as [ra|] eqn:Ha.
  - assert (Hi : (i < m)%nat).
    { destruct HA as [<- _]. by eapply lookup_lt_Some. }
    destruct (lookup_lt_is_Some_2 B i) as [rb Hb].
    { destruct HB as [-> _]. done. }
    rewrite Hb. f_equal.
    rewrite <- (getnum_tabulate ra), <- (getnum_tabulate rb).
    rewrite (rect_lookup _ _ _ _ _ HA Ha), (rect_lookup _ _ _ _ _ HB Hb).
    apply list_fmap_ext. intros _ j _.
    specialize (Hent i j). unfold entry in Hent.
    by rewrite Ha, Hb in Hent.
  - symmetry. apply lookup_ge_None_2.
    apply lookup_ge_None_1 in Ha.
    destruct HA as [HA _], HB as [HB _]. lia.
Qed.

Lemma transpose_involutive (M : matrix) m n :
  rect m n M -> (0 < m)%nat -> (0 < n)%nat ->
  transpose ((fun j => getCol M j) <$> seq 0 n) = Ok M.
Proof.
  intros HM Hm Hn.
  rewrite (transpose_ok _ n m); [|by apply transposed_rect|done].
  f_equal. apply (matrix_ext _ _ m n); [|done|].
  - by apply transposed_rect, transposed_rect.
  - intros i j.
    rewrite (transposed_entry _ n m) by by apply transposed_rect.
    by rewrite (transposed_entry _ m n).
Qed.

Lemma ncols_rect (M : matrix) m n : rect m n M -> (0 < m)%nat -> ncols M = n.
Proof.
  intros HM Hm. unfold ncols. destruct M as [|r0 M'].
  - destruct HM as [Hlen _]. simpl in Hlen. lia.
  - simpl. by apply (rect_lookup m n (r0 :: M') 0 r0 HM).
Qed.

(** ** Preparing the matrix (lines 52-64) *)

Lemma prepare_tall img :
  (0 < height img)%nat -> (width img <= height img)%nat ->
  prepare img = Ok (grayMatrix img, height img, width img).
Proof.
  intros Hh Htall. unfold prepare, isTall.
  rewrite (proj2 (Nat.leb_le _ _) Htall). simpl.
  pose proof (grayMatrix_rect img) as Hg.
  pose proof (ncols_rect _ _ _ Hg Hh) as Hn. unfold ncols in Hn.
  destruct (grayMatrix img) as [|r0 g] eqn:Eg.
  - destruct Hg as [Hlen _]. simpl in Hlen. lia.
  - simpl in *. destruct Hg as [Hlen _]. simpl in Hlen. by rewrite Hn, Hlen.
Qed.

Lemma prepare_wide img :
  (0 < height img)%nat -> (height img < width img)%nat ->
  prepare img
  = Ok ((fun j => getCol (grayMatrix img) j) <$> seq 0 (width img),
        width img, height img).
Proof.
  intros Hh Hwide. unfold prepare, isTall.
  rewrite (proj2 (Nat.leb_gt _ _) Hwide). simpl.
  pose proof (grayMatrix_rect img) as Hg.
  rewrite (transpose_ok _ _ _ Hg Hh). simpl.
  pose proof (transposed_rect _ _ _ Hg) as HT.
  assert (Hw : (0 < width img)%nat) by lia.
  pose proof (ncols_rect _ _ _ HT Hw) as Hn. unfold ncols in Hn.
  destruct HT as [Hlen _].
  destruct ((fun j => getCol (grayMatrix img) j) <$> seq 0 (width img))
    as [|r0 g] eqn:Eg.
  - simpl in Hlen. lia.
  - simpl in *. by rewrite Hn, Hlen.
Qed.

Lemma prepare_empty img : height img = 0%nat -> prepare img = Throw TypeError.
Proof.
  intros Hh. unfold prepare, isTall, grayMatrix. rewrite Hh. simpl.
  by destruct (width img <=? 0)%nat.
Qed.

(** What [prepare] returns: the longer side first. *)
Lemma prepare_shape img mat m n :
  prepare img = Ok (mat, m, n) ->
  rect m n mat ∧ (0 < m)%nat ∧ (0 < height img)%nat
  ∧ n = Nat.min (height img) (width img)
  ∧ m = Nat.max (height img) (width img)
  ∧ (if isTall img then m = height img ∧ n = width img ∧ mat = grayMatrix img
     else m = width img ∧ n = height img).
Proof.
  intros Hp.
  destruct (decide (height img = 0%nat)) as [Hz|Hnz].
  { by rewrite (prepare_empty img Hz) in Hp. }
  assert (Hh : (0 < height img)%nat) by lia.
  pose proof (grayMatrix_rect img) as Hg.
  destruct (decide (width img <= height img)%nat) as [Htall|Hwide].
  - rewrite (prepare_tall img Hh Htall) in Hp. simplify_eq.
    unfold isTall. rewrite (proj2 (Nat.leb_le _ _) Htall).
    split; [done|]. repeat split; lia.
  - rewrite (prepare_wide img Hh) in Hp by lia. simplify_eq.
    unfold isTall. rewrite (proj2 (Nat.leb_gt _ _)) by lia.
    split; [by apply transposed_rect|]. repeat split; lia.
Qed.

(** ** The orientation normalizer (lines 61-62 and 75) *)

(** C3.  For the luminance matrix of a raster, of M = height rows and
    N = width columns (M at least 1): the flag [tall] of line 61 is false,
    and the matrix handed on is the transpose, of N rows and M columns with
    the entries mirrored, exactly when M < N; otherwise the matrix is
    handed on unchanged.  The inverse step of line 75, under the same
    flag, gives back the luminance matrix itself when applied to the
    forward result, and turns any matrix of the normalized shape into one
    of M rows and N columns, mirrored back exactly when the forward step
    transposed; this is the matrix that the run hands to the raster
    writer. *)
Theorem orientation_normalizer_roundtrip (svd : svd_engine) (img : ImageData)
    (k : Z) :
  (0 < height img)%nat ->
  let M := height img in
  let N := width img in
  let gray := grayMatrix img in
  (isTall img = false <-> (M < N)%nat)
  ∧ ∃ mat m n,
      prepare img = Ok (mat, m, n)
      ∧ orient (isTall img) gray = Ok mat
      ∧ rect m n mat
      ∧ (if isTall img then mat = gray ∧ m = M ∧ n = N
         else m = N ∧ n = M ∧ transpose gray = Ok mat
              ∧ ∀ i j, entry mat j i = entry gray i j)
      ∧ unorient (isTall img) (Rows mat) = Ok (Rows gray)
      ∧ ∀ recon, rect m n recon ->
          ∃ R, unorient (isTall img) (Rows recon) = Ok (Rows R)
               ∧ rect M N R
               ∧ (∀ i j, entry R i j
                         = if isTall img then entry recon i j
                           else entry recon j i)
               ∧ ∀ U Sv V,
                   svd mat = Ok (U, Sv, V) ->
                   reconstruct U Sv V (effectiveRank k m n) = Ok (Rows recon) ->
                   compressCore svd img k = writeRaster N M (Rows R).
Proof.
  intros Hh M N gray.
  pose proof (grayMatrix_rect img) as Hg. fold M N gray in Hg.
  assert (Hrun : ∀ mat m n recon R,
            prepare img = Ok (mat, m, n) ->
            unorient (isTall img) (Rows recon) = Ok (Rows R) ->
            ∀ U Sv V,
              svd mat = Ok (U, Sv, V) ->
              reconstruct U Sv V (effectiveRank k m n) = Ok (Rows recon) ->
              compressCore svd img k = writeRaster N M (Rows R)).
  { intros mat m n recon R Hp Hun U Sv V Hsvd Hrec.
    unfold compressCore. rewrite Hp. simpl. rewrite Hsvd. simpl.
    rewrite Hrec. simpl. rewrite Hun. done. }
  unfold isTall. fold M N.
  destruct (N <=? M)%nat eqn:Htall.
  - apply Nat.leb_le in Htall. split; [split; [done|lia]|].
    pose proof (prepare_tall img Hh Htall) as Hp.
    assert (HisT : isTall img = true)
      by (unfold isTall; by apply Nat.leb_le).
    rewrite HisT in Hrun.
    exists gray, M, N. split; [done|]. split; [done|]. split; [done|].
    split; [done|]. split; [done|].
    intros recon Hr. exists recon. split; [done|]. split; [done|].
    split; [done|]. intros U Sv V. by apply (Hrun gray M N recon recon).
  - apply Nat.leb_gt in Htall. split; [done|].
    pose proof (prepare_wide img Hh Htall) as Hp.
    assert (HisT : isTall img = false)
      by (unfold isTall; by apply Nat.leb_gt).
    rewrite HisT in Hrun.
    pose proof (transposed_rect _ _ _ Hg) as Hmat.
    exists ((fun j => getCol gray j) <$> seq 0 N), N, M.
    split; [done|]. split; [by apply (transpose_ok _ M N)|].
    split; [done|]. split.
    { split; [done|]. split; [done|].
      split; [by apply (transpose_ok _ M N)|].
      intros i j. by apply (transposed_entry _ M N). }
    split.
    { simpl. rewrite (transpose_involutive _ M N) by (done || lia). done. }
    intros recon Hr.
    exists ((fun j => getCol recon j) <$> seq 0 M).
    assert (Hun : unorient false (Rows recon)
                  = Ok (Rows ((fun j => getCol recon j) <$> seq 0 M))).
    { simpl. rewrite (transpose_ok _ N M) by (done || lia). done. }
    split; [done|]. split; [by apply transposed_rect|].
    split; [intros i j; by apply (transposed_entry _ N M)|].
    intros U Sv V. by apply (Hrun _ N M recon _).
Qed.

Lemma orientation_normalizer_roundtrip_witness :
  let M := height img21 in
  let N := width img21 in
  let gray := grayMatrix img21 in
  (isTall img21 = false <-> (M < N)%nat)
  ∧ ∃ mat m n,
      prepare img21 = Ok (mat, m, n)
      ∧ orient (isTall img21) gray = Ok mat
      ∧ rect m n mat
      ∧ (if isTall img21 then mat = gray ∧ m = M ∧ n = N
         else m = N ∧ n = M ∧ transpose gray = Ok mat
              ∧ ∀ i j, entry mat j i = entry gray i j)
      ∧ unorient (isTall img21) (Rows mat) = Ok (Rows gray)
      ∧ ∀ recon, rect m n recon ->
          ∃ R, unorient (isTall img21) (Rows recon) = Ok (Rows R)
               ∧ rect M N R
               ∧ (∀ i j, entry R i j
                         = if isTall img21 then entry recon i j
                           else entry recon j i)
               ∧ ∀ U Sv V,
                   svd_diagonal mat = Ok (U, Sv, V) ->
                   reconstruct U Sv V (effectiveRank 1 m n) = Ok (Rows recon) ->
                   compressCore svd_diagonal img21 1 = writeRaster N M (Rows R).
Proof.
  apply (orientation_normalizer_roundtrip svd_diagonal img21 1). simpl. lia.
Defined.

(** ** Truncation *)

(** Number of leading entries that [slice(0, e)] keeps of [n]. *)
Lemma slice0_length {A} (e : Z) (a : list A) :
  length (slice0 e a)
  = Z.to_nat (if e <? 0 then Z.max (Z.of_nat (length a) + e) 0
              else Z.min e (Z.of_nat (length a))).
Proof.
  unfold slice0. rewrite length_take.
  destruct (e <? 0) eqn:He; lia.
Qed.

Lemma slice0_all {A} (e : Z) (a : list A) :
  Z.of_nat (length a) <= e -> slice0 e a = a.
Proof.
  intros He. unfold slice0.
  assert ((e <? 0) = false) as -> by (apply Z.ltb_ge; lia).
  apply take_ge. lia.
Qed.

Lemma slice0_from_end {A} (e : Z) (a : list A) :
  - Z.of_nat (length a) <= e < 0 ->
  slice0 e a = slice0 (Z.of_nat (length a) + e) a.
Proof.
  intros He. unfold slice0.
  assert ((e <? 0) = true) as -> by (apply Z.ltb_lt; lia).
  assert ((Z.of_nat (length a) + e <? 0) = false) as -> by (apply Z.ltb_ge; lia).
  f_equal. lia.
Qed.

Lemma slice0_rows_all (e : Z) (M : matrix) m n :
  rect m n M -> Z.of_nat n <= e -> slice0 e <$> M = M.
Proof.
  intros [_ Hall] He. rewrite <- (list_fmap_id M) at 2.
  apply Forall_fmap_ext_1. eapply Forall_impl; [exact Hall|].
  intros row Hrow. simpl in *. apply slice0_all. lia.
Qed.

Lemma slice0_rows_from_end (e : Z) (M : matrix) m n :
  rect m n M -> - Z.of_nat n <= e < 0 ->
  slice0 e <$> M = slice0 (Z.of_nat n + e) <$> M.
Proof.
  intros [_ Hall] He.
  apply Forall_fmap_ext_1. eapply Forall_impl; [exact Hall|].
  intros row Hrow. simpl in *. rewrite <- Hrow. apply slice0_from_end. lia.
Qed.

Lemma slice0_rows_rect (e : Z) (M : matrix) m n :
  rect m n M ->
  rect m (Z.to_nat (if e <? 0 then Z.max (Z.of_nat n + e) 0
                    else Z.min e (Z.of_nat n)))
       (slice0 e <$> M).
Proof.
  intros [Hlen Hall]. split; [by rewrite length_fmap|].
  apply Forall_fmap. eapply Forall_impl; [exact Hall|].
  intros row Hrow. simpl in *. by rewrite slice0_length, Hrow.
Qed.

Lemma diag_rect (d : list num) : rect (length d) (length d) (diag d).
Proof.
  unfold diag. split; [by rewrite length_imap|].
  apply Forall_lookup. intros i row Hrow.
  rewrite list_lookup_imap in Hrow.
  destruct (d !! i); simplify_eq/=.
  by rewrite length_fmap, length_seq.
Qed.

(** ** The matrix product *)

Lemma dotMM_rect (A B : matrix) :
  rect (length A) (ncols B)
       (if (length B <? 10)%nat then dotMMsmall A B else dotMMbig A B).
Proof.
  destruct (length B <? 10)%nat; unfold dotMMsmall, dotMMbig;
    (split; [by rewrite length_fmap|]);
    apply Forall_fmap, Forall_forall; intros row _; simpl;
    by rewrite length_fmap, length_seq.
Qed.

Lemma dot_rows (A B : matrix) :
  (0 < length A)%nat -> (0 < length B)%nat ->
  dot (Rows A) (Rows B)
  = Ok (Rows (if (length B <? 10)%nat then dotMMsmall A B else dotMMbig A B)).
Proof.
  intros HA HB. destruct A; [simpl in HA; lia|].
  destruct B; [simpl in HB; lia|]. done.
Qed.

Lemma rect_length (M : matrix) m n : rect m n M -> length M = m.
Proof. by intros [? _]. Qed.

(** With at least one kept component the reconstruction is a matrix of the
    shape of the decomposed one. *)
Lemma reconstruct_ok U Sv V m n kEff :
  svd_shape m n U Sv V -> (0 < m)%nat ->
  (1 <= kEff ∨ - Z.of_nat n < kEff < 0) -> (0 < n)%nat ->
  ∃ R, reconstruct U Sv V kEff = Ok (Rows R) ∧ rect m n R.
Proof.
  intros (HU & HS & HV) Hm Hk Hn. unfold reconstruct.
  set (p := Z.to_nat (if kEff <? 0 then Z.max (Z.of_nat n + kEff) 0
                      else Z.min kEff (Z.of_nat n))).
  assert (Hp : (0 < p)%nat).
  { subst p. destruct (kEff <? 0) eqn:He.
    - apply Z.ltb_lt in He. lia.
    - apply Z.ltb_ge in He. lia. }
  pose proof (slice0_rows_rect kEff U m n HU) as HUk.
  pose proof (slice0_rows_rect kEff V n n HV) as HVk.
  fold p in HUk, HVk.
  assert (HSk : length (slice0 kEff Sv) = p).
  { by rewrite slice0_length, HS. }
  rewrite (transpose_ok _ n p HVk Hn). simpl.
  pose proof (transposed_rect _ _ _ HVk) as HVT.
  pose proof (diag_rect (slice0 kEff Sv)) as HD. rewrite HSk in HD.
  rewrite dot_rows;
    [|by rewrite (rect_length _ _ _ HD)|by rewrite (rect_length _ _ _ HVT)].
  simpl.
  set (VT := (fun j => getCol (slice0 kEff <$> V) j) <$> seq 0 p) in *.
  set (Sk := diag (slice0 kEff Sv)) in *.
  pose proof (dotMM_rect Sk VT) as Hin.
  rewrite (rect_length _ _ _ HD), (ncols_rect _ _ _ HVT Hp) in Hin.
  rewrite dot_rows;
    [|by rewrite (rect_length _ _ _ HUk)|by rewrite (rect_length _ _ _ Hin)].
  eexists. split; [done|].
  set (inner := if (length VT <? 10)%nat then _ else _) in *.
  pose proof (dotMM_rect (slice0 kEff <$> U) inner) as Hout.
  by rewrite (rect_length _ _ _ HUk), (ncols_rect _ _ _ Hin Hp) in Hout.
Qed.

(** ** Loops *)

Lemma forM_seq_inv {St} (I : nat -> St -> Prop) (body : nat -> St -> result St)
    (a len : nat) (s : St) :
  I a s ->
  (∀ i t, (a <= i < a + len)%nat -> I i t ->
          ∃ t', body i t = Ok t' ∧ I (Datatypes.S i) t') ->
  ∃ s', forM body (seq a len) s = Ok s' ∧ I (a + len)%nat s'.
Proof.
  revert a s. induction len as [|len IH]; intros a s Ha Hstep.
  - exists s. simpl. by rewrite Nat.add_0_r.
  - simpl. destruct (Hstep a s) as (t' & -> & Ht'); [lia|done|].
    destruct (IH (Datatypes.S a) t') as (s' & Hs' & HI); [done| |].
    + intros i t Hi. apply Hstep. lia.
    + exists s'. split; [done|]. by replace (a + Datatypes.S len)%nat
        with (Datatypes.S a + len)%nat by lia.
Qed.

Lemma for_upto_inv {St} (I : nat -> St -> Prop) (body : nat -> St -> result St)
    (n : nat) (s : St) :
  I 0%nat s ->
  (∀ i t, (i < n)%nat -> I i t -> ∃ t', body i t = Ok t' ∧ I (Datatypes.S i) t') ->
  ∃ s', for_upto n body s = Ok s' ∧ I n s'.
Proof.
  intros H0 Hstep. apply (forM_seq_inv I body 0 n s H0).
  intros i t Hi. apply Hstep. lia.
Qed.

(** ** The raster writer *)

Lemma store_other (d : list Z) idx b i :
  (i < idx ∨ idx + 3 < i)%nat ->
  (<[(idx + 3)%nat := 255]>
     (<[idx := b]> (<[(idx + 1)%nat := b]> (<[(idx + 2)%nat := b]> d)))) !! i
  = d !! i.
Proof. intros Hi. rewrite !list_lookup_insert_ne by lia. done. Qed.

Lemma store_length (d : list Z) idx b :
  length (<[(idx + 3)%nat := 255]>
            (<[idx := b]> (<[(idx + 1)%nat := b]> (<[(idx + 2)%nat := b]> d))))
  = length d.
Proof. by rewrite !length_insert. Qed.

Lemma store_same (d : list Z) idx b :
  (idx + 3 < length d)%nat ->
  let d' := <[(idx + 3)%nat := 255]>
              (<[idx := b]> (<[(idx + 1)%nat := b]> (<[(idx + 2)%nat := b]> d))) in
  d' !! idx = Some b ∧ d' !! (idx + 1)%nat = Some b
  ∧ d' !! (idx + 2)%nat = Some b ∧ d' !! (idx + 3)%nat = Some 255.
Proof.
  intros Hlen d'. subst d'. repeat split.
  - rewrite list_lookup_insert_ne by lia.
    apply list_lookup_insert_eq. rewrite !length_insert. lia.
  - rewrite !list_lookup_insert_ne by lia.
    apply list_lookup_insert_eq. rewrite !length_insert. lia.
  - rewrite !list_lookup_insert_ne by lia.
    apply list_lookup_insert_eq. lia.
  - apply list_lookup_insert_eq. rewrite !length_insert. lia.
Qed.

Lemma pixel_written_frame (d d' : list Z) w R r c :
  (∀ j, (j < 4)%nat -> d' !! ((r * w + c) * 4 + j)%nat
                       = d !! ((r * w + c) * 4 + j)%nat) ->
  pixel_written d w R r c -> pixel_written d' w R r c.
Proof.
  intros Heq (H0 & H1 & H2 & H3). unfold pixel_written.
  pose proof (Heq 0%nat) as E0. rewrite Nat.add_0_r in E0.
  rewrite E0, (Heq 1%nat), (Heq 2%nat), (Heq 3%nat) by lia. done.
Qed.

Lemma writePixel_rows w (R : matrix) r c d :
  (r < length R)%nat ->
  writePixel w (Rows R) r c d
  = Ok (<[((r * w + c) * 4 + 3)%nat := 255]>
          (<[((r * w + c) * 4)%nat := lumByte (entry R r c)]>
             (<[((r * w + c) * 4 + 1)%nat := lumByte (entry R r c)]>
                (<[((r * w + c) * 4 + 2)%nat := lumByte (entry R r c)]> d)))).
Proof.
  intros Hr. unfold writePixel, cell, entry.
  destruct (lookup_lt_is_Some_2 R r Hr) as [row Hrow]. by rewrite Hrow.
Qed.

(** One row of the raster: the inner loop of lines 80-85. *)
Lemma write_row w h (R : matrix) r d :
  (r < h)%nat -> (h <= length R)%nat ->
  length d = (4 * w * h)%nat ->
  (∀ r' c', (r' < r)%nat -> (c' < w)%nat -> pixel_written d w R r' c') ->
  ∃ d', for_upto w (fun c => writePixel w (Rows R) r c) d = Ok d'
        ∧ length d' = (4 * w * h)%nat
        ∧ ∀ r' c', (r' < Datatypes.S r)%nat -> (c' < w)%nat ->
                   pixel_written d' w R r' c'.
Proof.
  intros Hr Hh Hlen Hprev.
  destruct (for_upto_inv
    (fun c t => length t = (4 * w * h)%nat
                ∧ (∀ r' c', (r' < r)%nat -> (c' < w)%nat ->
                            pixel_written t w R r' c')
                ∧ (∀ c', (c' < c)%nat -> pixel_written t w R r c'))
    (fun c => writePixel w (Rows R) r c) w d) as (d' & Hd' & HL & Hp & Hc).
  - split; [done|]. split; [done|]. intros c' Hc'. lia.
  - intros c t Hc (HL & Hp & Hcur).
    rewrite writePixel_rows by lia. eexists. split; [done|].
    split; [by rewrite store_length|].
    assert (Hidx : ((r * w + c) * 4 + 3 < length t)%nat) by (rewrite HL; nia).
    split.
    + intros r' c' Hr' Hc'. eapply pixel_written_frame; [|by apply Hp].
      intros j Hj. apply store_other. nia.
    + intros c' Hc'. destruct (decide (c' = c)) as [->|Hne].
      * by apply store_same.
      * eapply pixel_written_frame; [|apply Hcur; lia].
        intros j Hj. apply store_other. nia.
  - exists d'. split; [done|]. split; [done|].
    intros r' c' Hr' Hc'. destruct (decide (r' = r)) as [->|Hne].
    + by apply Hc.
    + apply Hp; [lia|done].
Qed.

(** Lines 78-86 on a matrix with enough rows. *)
Lemma writeRaster_rows w h (R : matrix) :
  (0 < w)%nat -> (0 < h)%nat -> (h <= length R)%nat ->
  ∃ d, writeRaster w h (Rows R) = Ok (mkImageData d w h)
       ∧ length d = (4 * w * h)%nat
       ∧ ∀ r c, (r < h)%nat -> (c < w)%nat -> pixel_written d w R r c.
Proof.
  intros Hw Hh HR. unfold writeRaster, createImageData.
  rewrite bool_decide_eq_false_2 by lia. cbn -[Nat.mul].
  destruct (for_upto_inv
    (fun r t => length t = (4 * w * h)%nat
                ∧ ∀ r' c', (r' < r)%nat -> (c' < w)%nat ->
                           pixel_written t w R r' c')
    (fun r => for_upto w (fun c => writePixel w (Rows R) r c)) h
    (replicate (4 * w * h) 0)) as (d & Hd & HL & Hp).
  - split; [by rewrite length_replicate|]. intros r' c' Hr'. lia.
  - intros r t Hr (HL & Hp).
    destruct (write_row w h R r t Hr HR HL Hp) as (t' & Ht' & HL' & Hp').
    exists t'. done.
  - exists d. rewrite Hd. done.
Qed.

(** ** Clamping and rounding *)

Lemma clampQ_below q : (q < 0)%Q -> clampQ q = 0%Q.
Proof.
  intros Hq. unfold clampQ.
  by rewrite (proj1 (Qlt_alt q 0) Hq).
Qed.

Lemma clampQ_above q : (255 < q)%Q -> clampQ q = 255%Q.
Proof.
  intros Hq. unfold clampQ.
  assert ((q ?= 0)%Q = Gt) as -> by (apply Qgt_alt; lra).
  by rewrite (proj1 (Qgt_alt q 255) Hq).
Qed.

Lemma clampQ_inside q : (0 <= q)%Q -> (q <= 255)%Q -> clampQ q = q.
Proof.
  intros H0 H255. unfold clampQ.
  destruct (Qcompare_spec q 0) as [E|E|E]; [|lra|];
    (destruct (Qcompare_spec q 255) as [E'|E'|E']; [done|done|lra]).
Qed.

Lemma clampQ_range q : (0 <= clampQ q)%Q ∧ (clampQ q <= 255)%Q.
Proof.
  destruct (Qlt_le_dec q 0) as [Hlt|Hge].
  - rewrite clampQ_below by done. split; discriminate.
  - destruct (Qlt_le_dec 255 q) as [Hgt|Hle].
    + rewrite clampQ_above by done. split; discriminate.
    + rewrite clampQ_inside by done. done.
Qed.

Lemma roundTiesToEven_range x :
  (0 <= x)%Q -> (x <= 255)%Q -> 0 <= roundTiesToEven x <= 255.
Proof.
  intros H0 H255.
  pose proof (Qfloor_resp_le _ _ H0) as Hf0.
  pose proof (Qfloor_resp_le _ _ H255) as Hf255.
  change (Qfloor 0) with 0 in Hf0. change (Qfloor 255) with 255 in Hf255.
  assert (Hstrict : (inject_Z (Qfloor x) + (1 # 2) <= x)%Q -> Qfloor x < 255).
  { intros Hle. rewrite Zlt_Qlt. change (inject_Z 255) with 255%Q. lra. }
  unfold roundTiesToEven.
  destruct (Qcompare_spec x (inject_Z (Qfloor x) + (1 # 2))) as [E|E|E].
  - destruct (Z.even (Qfloor x)); [lia|].
    assert (Qfloor x < 255) by (apply Hstrict; lra). lia.
  - lia.
  - assert (Qfloor x < 255) by (apply Hstrict; by apply Qlt_le_weak). lia.
Qed.

Lemma lumByte_fin q : lumByte (Fin q) = roundTiesToEven (clampQ q).
Proof.
  unfold lumByte, Math_max, Math_min, ofZ, jlt, clampQ.
  change (inject_Z 0) with 0%Q. change (inject_Z 255) with 255%Q.
  destruct (q ?= 0)%Q eqn:E0; try reflexivity;
    rewrite <- (Qcompare_antisym q 255);
    destruct (q ?= 255)%Q eqn:E1; simpl; unfold clampQ;
    rewrite ?E0, ?E1; reflexivity.
Qed.

Lemma lumByte_range v : 0 <= lumByte v <= 255.
Proof.
  destruct v as [|[|]|q]; try (vm_compute; split; discriminate).
  rewrite lumByte_fin.
  destruct (clampQ_range q). by apply roundTiesToEven_range.
Qed.

Lemma byte_position (w h i : nat) :
  (0 < w)%nat -> (i < 4 * w * h)%nat ->
  ∃ r c j, (r < h)%nat ∧ (c < w)%nat ∧ (j < 4)%nat
           ∧ i = ((r * w + c) * 4 + j)%nat.
Proof.
  intros Hw Hi.
  exists ((i / 4) / w)%nat, ((i / 4) mod w)%nat, (i mod 4)%nat.
  pose proof (Nat.div_mod_eq i 4) as E4.
  pose proof (Nat.div_mod_eq (i / 4) w) as Ew.
  pose proof (Nat.mod_upper_bound i 4) as B4.
  pose proof (Nat.mod_upper_bound (i / 4) w) as Bw.
  assert (Hp : (i / 4 < w * h)%nat).
  { apply Nat.Div0.div_lt_upper_bound. lia. }
  assert (Hr : (i / 4 / w < h)%nat).
  { apply Nat.Div0.div_lt_upper_bound. lia. }
  repeat split; [done|lia|lia|]. nia.
Qed.

(** C1.  For a reconstructed matrix with at least H rows handed to the
    writer of a W by H raster (W, H at least 1), the writer succeeds and
    returns a raster of that size in which pixel (r, c) has R = G = B = b
    and A = 255, where b is the stored conversion of
    min(max(value, 0), 255): for a finite value, the clamped value rounded
    to the nearest integer (a tie goes to the even neighbour); every byte
    of the raster is an integer within 0..255, whatever the entries (NaN,
    infinities, missing entries included). *)
Theorem raster_writer_spec (w h : nat) (R : matrix) :
  (0 < w)%nat -> (0 < h)%nat -> (h <= length R)%nat ->
  ∃ out,
    writeRaster w h (Rows R) = Ok out
    ∧ width out = w ∧ height out = h
    ∧ length (data out) = (4 * w * h)%nat
    ∧ (∀ r c, (r < h)%nat -> (c < w)%nat ->
         ∃ b, data out !! ((r * w + c) * 4)%nat = Some b
              ∧ data out !! ((r * w + c) * 4 + 1)%nat = Some b
              ∧ data out !! ((r * w + c) * 4 + 2)%nat = Some b
              ∧ data out !! ((r * w + c) * 4 + 3)%nat = Some 255
              ∧ b = lumByte (entry R r c)
              ∧ 0 <= b <= 255
              ∧ ∀ q, entry R r c = Fin q ->
                     b = roundTiesToEven (clampQ q)
                     ∧ (Qabs (inject_Z b - clampQ q) <= 1 # 2)%Q
                     ∧ ((q < 0)%Q -> clampQ q = 0%Q)
                     ∧ ((255 < q)%Q -> clampQ q = 255%Q)
                     ∧ ((0 <= q)%Q -> (q <= 255)%Q -> clampQ q = q))
    ∧ (∀ i z, data out !! i = Some z -> 0 <= z <= 255).
Proof.
  intros Hw Hh HR.
  destruct (writeRaster_rows w h R Hw Hh HR) as (d & Hd & HL & Hpix).
  exists (mkImageData d w h). simpl.
  split; [done|]. split; [done|]. split; [done|]. split; [done|]. split.
  - intros r c Hr Hc. destruct (Hpix r c Hr Hc) as (H0 & H1 & H2 & H3).
    exists (lumByte (entry R r c)).
    do 5 (split; [done|]). split; [apply lumByte_range|].
    intros q Hq. rewrite Hq, lumByte_fin.
    split; [done|]. split; [apply roundTiesToEven_nearest|].
    split; [apply clampQ_below|]. split; [apply clampQ_above|].
    apply clampQ_inside.
  - intros i z Hi.
    assert (Hlt : (i < 4 * w * h)%nat).
    { rewrite <- HL. by eapply lookup_lt_Some. }
    destruct (byte_position w h i Hw Hlt) as (r & c & j & Hr & Hc & Hj & ->).
    destruct (Hpix r c Hr Hc) as (H0 & H1 & H2 & H3).
    pose proof (lumByte_range (entry R r c)) as Hb.
    destruct j as [|[|[|[|j]]]]; [| | | |lia].
    + rewrite Nat.add_0_r in Hi. rewrite H0 in Hi. by simplify_eq.
    + rewrite H1 in Hi. by simplify_eq.
    + rewrite H2 in Hi. by simplify_eq.
    + rewrite H3 in Hi. simplify_eq. lia.
Qed.

Lemma raster_writer_spec_witness :
  let R : matrix := [[Fin (5 # 2); NaN]; [Inf false; Fin (-7 # 1)]] in
  ∃ out,
    writeRaster 2 2 (Rows R) = Ok out
    ∧ width out = 2%nat ∧ height out = 2%nat
    ∧ length (data out) = (4 * 2 * 2)%nat
    ∧ (∀ r c, (r < 2)%nat -> (c < 2)%nat ->
         ∃ b, data out !! ((r * 2 + c) * 4)%nat = Some b
              ∧ data out !! ((r * 2 + c) * 4 + 1)%nat = Some b
              ∧ data out !! ((r * 2 + c) * 4 + 2)%nat = Some b
              ∧ data out !! ((r * 2 + c) * 4 + 3)%nat = Some 255
              ∧ b = lumByte (entry R r c)
              ∧ 0 <= b <= 255
              ∧ ∀ q, entry R r c = Fin q ->
                     b = roundTiesToEven (clampQ q)
                     ∧ (Qabs (inject_Z b - clampQ q) <= 1 # 2)%Q
                     ∧ ((q < 0)%Q -> clampQ q = 0%Q)
                     ∧ ((255 < q)%Q -> clampQ q = 255%Q)
                     ∧ ((0 <= q)%Q -> (q <= 255)%Q -> clampQ q = q))
    ∧ (∀ i z, data out !! i = Some z -> 0 <= z <= 255).
Proof.
  apply (raster_writer_spec 2 2
           [[Fin (5 # 2); NaN]; [Inf false; Fin (-7 # 1)]]); simpl; lia.
Defined.

(** ** The whole core on a well-shaped decomposition *)

Lemma compressCore_ok (svd : svd_engine) img k mat m n U Sv V :
  prepare img = Ok (mat, m, n) ->
  svd mat = Ok (U, Sv, V) ->
  svd_shape m n U Sv V ->
  (0 < width img)%nat ->
  (1 <= k ∨ - Z.of_nat n < k < 0) ->
  ∃ d, compressCore svd img k = Ok (mkImageData d (width img) (height img))
       ∧ length d = (4 * width img * height img)%nat.
Proof.
  intros Hp Hsvd Hshape Hw Hk.
  destruct (prepare_shape _ _ _ _ Hp) as (Hmat & Hm & Hh & Hn & Hmx & Htall).
  assert (Hn0 : (0 < n)%nat) by lia.
  destruct (reconstruct_ok U Sv V m n (effectiveRank k m n) Hshape Hm)
    as (R & HR & HRrect); [unfold effectiveRank; lia|done|].
  unfold compressCore. rewrite Hp. simpl. rewrite Hsvd. simpl.
  rewrite HR. simpl.
  destruct (isTall img).
  - destruct Htall as (-> & -> & _). simpl.
    destruct (writeRaster_rows (width img) (height img) R) as (d & Hd & HL & _);
      [done|done|by rewrite (rect_length _ _ _ HRrect)|].
    exists d. done.
  - destruct Htall as (-> & ->). simpl.
    rewrite (transpose_ok _ _ _ HRrect Hm). simpl.
    pose proof (transposed_rect _ _ _ HRrect) as HT.
    destruct (writeRaster_rows (width img) (height img)
                ((fun j => getCol R j) <$> seq 0 (height img)))
      as (d & Hd & HL & _);
      [done|done|by rewrite (rect_length _ _ _ HT)|].
    exists d. done.
Qed.

(** For a count that is not negative, [slice(0, e)] is the first [e]
    entries. *)
Lemma slice0_take {A} (e : Z) (a : list A) :
  0 <= e -> slice0 e a = take (Z.to_nat e) a.
Proof.
  intros He. unfold slice0.
  assert ((e <? 0) = false) as -> by (apply Z.ltb_ge; lia).
  destruct (Z_le_gt_dec e (Z.of_nat (length a))) as [Hle|Hgt].
  - f_equal. lia.
  - rewrite !take_ge by lia. done.
Qed.

Lemma reconstruct_take U Sv V (kEff : Z) :
  0 <= kEff ->
  reconstruct U Sv V kEff = spec_truncatedProduct (Z.to_nat kEff) U Sv V.
Proof.
  intros Hk. unfold reconstruct, spec_truncatedProduct, fullProduct.
  rewrite (slice0_take kEff Sv Hk).
  rewrite (list_fmap_ext (slice0 kEff) (take (Z.to_nat kEff)) U)
    by (intros; by apply slice0_take).
  rewrite (list_fmap_ext (slice0 kEff) (take (Z.to_nat kEff)) V)
    by (intros; by apply slice0_take).
  done.
Qed.

(** C2.  For a requested k of at least 1 and a decomposition of the
    contract's shape, the rank used on lines 66-73, min(k, min(m, n)), is
    kEff = min(k, length(S)), at least 1 and at most length(S); the slices
    of lines 70-72 are the first kEff columns of U, the first kEff singular
    values and the first kEff columns of V, and the reconstruction is the
    product Uk . Sk . Vk^T of these truncated factors, a matrix of the
    shape of the decomposed one, which does not depend on any component
    beyond the first kEff.  The run raises no error, and for every k at or
    above min(M, N) the pipeline returns exactly what it returns for
    k = min(M, N). *)
Theorem effective_rank_clamp (svd : svd_engine) (img : ImageData) (k : Z) :
  1 <= k ->
  (∀ mat m n U Sv V,
      prepare img = Ok (mat, m, n) -> svd mat = Ok (U, Sv, V) ->
      svd_shape m n U Sv V -> (0 < width img)%nat ->
      let kEff := effectiveRank k m n in
      let p := Z.to_nat kEff in
      kEff = Z.min k (Z.of_nat (length Sv))
      ∧ (1 <= p <= length Sv)%nat
      ∧ slice0 kEff <$> U = take p <$> U
      ∧ slice0 kEff Sv = take p Sv
      ∧ slice0 kEff <$> V = take p <$> V
      ∧ rect m p (slice0 kEff <$> U)
      ∧ length (slice0 kEff Sv) = p
      ∧ rect n p (slice0 kEff <$> V)
      ∧ reconstruct U Sv V kEff = spec_truncatedProduct p U Sv V
      ∧ (∃ R, reconstruct U Sv V kEff = Ok (Rows R) ∧ rect m n R)
      ∧ (∀ U' Sv' V',
            take p <$> U' = take p <$> U -> take p Sv' = take p Sv ->
            take p <$> V' = take p <$> V ->
            reconstruct U' Sv' V' kEff = reconstruct U Sv V kEff)
      ∧ ∃ out, compressCore svd img k = Ok out)
  ∧ (Z.min (Z.of_nat (height img)) (Z.of_nat (width img)) <= k ->
     compressCore svd img k
     = compressCore svd img
         (Z.min (Z.of_nat (height img)) (Z.of_nat (width img)))).
Proof.
  intros Hk. split.
  - intros mat m n U Sv V Hp Hsvd Hshape Hw kEff p.
    destruct (prepare_shape _ _ _ _ Hp) as (_ & Hm & Hh & Hn & Hmx & _).
    pose proof Hshape as (HU & HS & HV).
    assert (Heff : kEff = Z.min k (Z.of_nat n))
      by (subst kEff; unfold effectiveRank; lia).
    assert (Hk1 : 1 <= kEff) by lia.
    assert (Hp1 : (1 <= p <= n)%nat) by (subst p; lia).
    assert (Hsl : ∀ A (a : list A), slice0 kEff a = take p a).
    { intros A a. apply slice0_take. lia. }
    assert (HUk : slice0 kEff <$> U = take p <$> U)
      by (apply list_fmap_ext; intros; apply Hsl).
    assert (HVk : slice0 kEff <$> V = take p <$> V)
      by (apply list_fmap_ext; intros; apply Hsl).
    split; [by rewrite HS|]. split; [by rewrite HS|].
    split; [done|]. split; [apply Hsl|]. split; [done|].
    split.
    { pose proof (slice0_rows_rect kEff U m n HU) as Hr.
      assert ((kEff <? 0) = false) as E by (apply Z.ltb_ge; lia).
      rewrite E in Hr. by replace (Z.to_nat (Z.min kEff (Z.of_nat n))) with p
        in Hr by (subst p; lia). }
    split; [rewrite Hsl, length_take; lia|].
    split.
    { pose proof (slice0_rows_rect kEff V n n HV) as Hr.
      assert ((kEff <? 0) = false) as E by (apply Z.ltb_ge; lia).
      rewrite E in Hr. by replace (Z.to_nat (Z.min kEff (Z.of_nat n))) with p
        in Hr by (subst p; lia). }
    split; [apply reconstruct_take; lia|].
    split; [apply (reconstruct_ok U Sv V m n kEff Hshape Hm); [by left|lia]|].
    split.
    { intros U' Sv' V' EU ES EV.
      rewrite !reconstruct_take by lia. fold p.
      unfold spec_truncatedProduct. by rewrite EU, ES, EV. }
    destruct (compressCore_ok svd img k mat m n U Sv V) as (d & Hd & _);
      try done; [lia|]. by eexists.
  - intros Hge. unfold compressCore.
    destruct (prepare img) as [[[mat m] n]|e] eqn:Hp; [|done]. simpl.
    destruct (prepare_shape _ _ _ _ Hp) as (_ & _ & _ & Hn & Hmx & _).
    replace (effectiveRank k m n)
      with (effectiveRank (Z.min (Z.of_nat (height img))
                                 (Z.of_nat (width img))) m n); [done|].
    unfold effectiveRank. lia.
Qed.

(** The 2 by 2 sample with k = 1: of the two components, of singular
    values 255 and 100, the first is kept. *)
Lemma effective_rank_clamp_witness :
  let U := identity_rows 2 2 in
  let Sv := [ofZ 255; ofZ 100] in
  let V := identity_rows 2 2 in
  (let kEff := effectiveRank 1 2 2 in
   let p := Z.to_nat kEff in
   kEff = Z.min 1 (Z.of_nat (length Sv))
   ∧ (1 <= p <= length Sv)%nat
   ∧ slice0 kEff <$> U = take p <$> U
   ∧ slice0 kEff Sv = take p Sv
   ∧ slice0 kEff <$> V = take p <$> V
   ∧ rect 2 p (slice0 kEff <$> U)
   ∧ length (slice0 kEff Sv) = p
   ∧ rect 2 p (slice0 kEff <$> V)
   ∧ reconstruct U Sv V kEff = spec_truncatedProduct p U Sv V
   ∧ (∃ R, reconstruct U Sv V kEff = Ok (Rows R) ∧ rect 2 2 R)
   ∧ (∀ U' Sv' V',
         take p <$> U' = take p <$> U -> take p Sv' = take p Sv ->
         take p <$> V' = take p <$> V ->
         reconstruct U' Sv' V' kEff = reconstruct U Sv V kEff)
   ∧ ∃ out, compressCore svd_diagonal img_diag 1 = Ok out)
  ∧ (Z.min (Z.of_nat (height img_diag)) (Z.of_nat (width img_diag)) <= 9999 ->
     compressCore svd_diagonal img_diag 9999
     = compressCore svd_diagonal img_diag
         (Z.min (Z.of_nat (height img_diag)) (Z.of_nat (width img_diag)))).
Proof.
  intros U Sv V.
  destruct (effective_rank_clamp svd_diagonal img_diag 1) as [Hone _]; [lia|].
  destruct (effective_rank_clamp svd_diagonal img_diag 9999) as [_ Hmany];
    [lia|].
  split; [|exact Hmany].
  apply (Hone (grayMatrix img_diag) 2%nat 2%nat U Sv V).
  - reflexivity.
  - vm_compute. reflexivity.
  - repeat split; repeat constructor.
  - simpl. lia.
Defined.

(** ** Requests that are not positive *)

Lemma slice0_none {A} (e : Z) (a : list A) :
  e = 0 ∨ e <= - Z.of_nat (length a) -> slice0 e a = [].
Proof.
  intros He. apply nil_length_inv. rewrite slice0_length.
  destruct (e <? 0) eqn:E.
  - apply Z.ltb_lt in E. lia.
  - apply Z.ltb_ge in E. lia.
Qed.

Lemma reconstruct_none U Sv V m n kEff :
  svd_shape m n U Sv V -> (0 < m)%nat -> (0 < n)%nat ->
  kEff = 0 ∨ kEff <= - Z.of_nat n ->
  reconstruct U Sv V kEff
  = Throw (Error "numeric.dot only works on vectors and matrices").
Proof.
  intros (HU & HS & HV) Hm Hn Hk. unfold reconstruct.
  rewrite (slice0_none kEff Sv) by lia.
  destruct V as [|v0 V'].
  { destruct HV as [Hlen _]. simpl in Hlen. lia. }
  destruct U as [|u0 U'].
  { destruct HU as [Hlen _]. simpl in Hlen. lia. }
  pose proof (rect_lookup _ _ _ 0%nat v0 HV eq_refl) as Hv0.
  simpl. rewrite (slice0_none kEff v0) by lia. done.
Qed.

Lemma reconstruct_from_end U Sv V m n kEff :
  svd_shape m n U Sv V -> - Z.of_nat n <= kEff < 0 ->
  reconstruct U Sv V kEff = reconstruct U Sv V (Z.of_nat n + kEff).
Proof.
  intros (HU & HS & HV) Hk. unfold reconstruct.
  rewrite (slice0_rows_from_end kEff U m n HU Hk).
  rewrite (slice0_rows_from_end kEff V n n HV Hk).
  rewrite (slice0_from_end kEff Sv) by (rewrite HS; lia).
  by rewrite HS.
Qed.

(** C6, as the code has it.  The pipeline only clamps the request from
    above: a request k that is zero or negative reaches the reconstructor
    unchanged and is never rejected as an invalid rank.  On a decomposition
    of the contract's shape, a negative k above -min(M, N) counts kept
    components from the end: the run equals the run for min(M, N) + k and
    returns a raster; for k = 0 and for k at or below -min(M, N) no
    component is kept and the library's product throws its own error. *)
Theorem nonpositive_rank_unchecked (svd : svd_engine) (img : ImageData) (k : Z)
    (mat : matrix) (m n : nat) (U : matrix) (Sv : list num) (V : matrix) :
  prepare img = Ok (mat, m, n) ->
  svd mat = Ok (U, Sv, V) ->
  svd_shape m n U Sv V ->
  (0 < width img)%nat ->
  k <= 0 ->
  effectiveRank k m n = k
  ∧ (- Z.of_nat n < k < 0 ->
     compressCore svd img k = compressCore svd img (Z.of_nat n + k)
     ∧ ∃ out, compressCore svd img k = Ok out)
  ∧ (k = 0 ∨ k <= - Z.of_nat n ->
     compressCore svd img k
     = Throw (Error "numeric.dot only works on vectors and matrices")).
Proof.
  intros Hp Hsvd Hshape Hw Hk.
  destruct (prepare_shape _ _ _ _ Hp) as (Hmat & Hm & Hh & Hn & Hmx & _).
  assert (Heff : effectiveRank k m n = k) by (unfold effectiveRank; lia).
  split; [done|]. split.
  - intros Hneg. split.
    + unfold compressCore. rewrite Hp. simpl. rewrite Hsvd. simpl.
      rewrite Heff.
      replace (effectiveRank (Z.of_nat n + k) m n) with (Z.of_nat n + k)
        by (unfold effectiveRank; lia).
      by rewrite (reconstruct_from_end U Sv V m n k Hshape) by lia.
    + destruct (compressCore_ok svd img k mat m n U Sv V) as (d & Hd & _);
        try done; [lia|]. by eexists.
  - intros Hnone.
    unfold compressCore. rewrite Hp. simpl. rewrite Hsvd. simpl.
    rewrite Heff.
    rewrite (reconstruct_none U Sv V m n k Hshape) by lia. done.
Qed.

Lemma nonpositive_rank_unchecked_witness :
  effectiveRank (-1) 2 2 = -1
  ∧ (- Z.of_nat 2 < -1 < 0 ->
     compressCore svd_diagonal img22 (-1)
     = compressCore svd_diagonal img22 (Z.of_nat 2 + -1)
     ∧ ∃ out, compressCore svd_diagonal img22 (-1) = Ok out)
  ∧ (-1 = 0 ∨ -1 <= - Z.of_nat 2 ->
     compressCore svd_diagonal img22 (-1)
     = Throw (Error "numeric.dot only works on vectors and matrices")).
Proof.
  apply (nonpositive_rank_unchecked svd_diagonal img22 (-1)
           (grayMatrix img22) 2 2 (identity_rows 2 2)
           ((fun i => entry (grayMatrix img22) i i) <$> seq 0 2)
           (identity_rows 2 2)).
  - reflexivity.
  - reflexivity.
  - repeat split; repeat constructor.
  - simpl. lia.
  - lia.
Defined.

(** C6, as stated, fails: the request k = -1 on the 2 by 2 sample raster
    raises nothing and yields an output raster. *)
Lemma negative_rank_yields_raster :
  -1 <= 0
  ∧ compressCore svd_diagonal img22 (-1)
    = Ok (mkImageData
            [255; 255; 255; 255; 0; 0; 0; 255; 0; 0; 0; 255; 0; 0; 0; 255] 2 2).
Proof. split; [lia|]. vm_compute. reflexivity. Qed.

(** ** Size of the output *)

Lemma forM_preserves {St} (P : St -> Prop) (body : nat -> St -> result St)
    (idxs : list nat) (s s' : St) :
  (∀ i t t', body i t = Ok t' -> P t -> P t') ->
  forM body idxs s = Ok s' -> P s -> P s'.
Proof.
  intros Hbody. revert s. induction idxs as [|i rest IH]; intros s Hrun Hs.
  - simpl in Hrun. by simplify_eq.
  - simpl in Hrun. destruct (body i s) as [t|e] eqn:Hb; [|done].
    eapply IH; [done|]. by eapply Hbody.
Qed.

Lemma writePixel_length w recon r c d d' :
  writePixel w recon r c d = Ok d' -> length d' = length d.
Proof.
  unfold writePixel. destruct (cell recon r c); simpl; [|done].
  intros ?. simplify_eq. apply store_length.
Qed.

Lemma writeRaster_size w h recon out :
  writeRaster w h recon = Ok out ->
  width out = w ∧ height out = h
  ∧ length (data out) = (4 * w * h)%nat ∧ (0 < w)%nat ∧ (0 < h)%nat.
Proof.
  unfold writeRaster, createImageData.
  destruct (bool_decide (w = 0%nat ∨ h = 0%nat)) eqn:Hz; [done|].
  apply bool_decide_eq_false in Hz. cbn -[Nat.mul].
  destruct (for_upto h _ _) as [d|e] eqn:Hloop; [|done].
  cbn -[Nat.mul]. intros ?. simplify_eq. cbn -[Nat.mul].
  split; [done|]. split; [done|]. split; [|lia].
  eapply (forM_preserves (fun t => length t = (4 * w * h)%nat));
    [|exact Hloop|by rewrite length_replicate].
  intros r t t' Hrow Ht.
  eapply (forM_preserves (fun t => length t = (4 * w * h)%nat));
    [|exact Hrow|done].
  intros c u u' Hpix Hu. by rewrite (writePixel_length _ _ _ _ _ _ Hpix).
Qed.

(** C8.  A successful run returns a raster with the width and the height
    of the input raster, and four bytes per pixel, whatever the requested
    k, the orientation of the raster and the decomposition routine. *)
Theorem output_dimensions (svd : svd_engine) (img out : ImageData) (k : Z) :
  compressCore svd img k = Ok out ->
  width out = width img ∧ height out = height img
  ∧ length (data out) = (4 * width img * height img)%nat.
Proof.
  unfold compressCore. intros Hrun.
  destruct (prepare img) as [[[mat m] n]|e]; [|done]. simpl in Hrun.
  destruct (svd mat) as [[[U Sv] V]|e]; [|done]. simpl in Hrun.
  destruct (reconstruct U Sv V _) as [recon|e]; [|done]. simpl in Hrun.
  destruct (unorient (isTall img) recon) as [recon'|e]; [|done].
  simpl in Hrun.
  destruct (writeRaster_size _ _ _ _ Hrun) as (? & ? & ? & _). done.
Qed.

Lemma output_dimensions_witness :
  width img21 = width img21 ∧ height img21 = height img21
  ∧ length (data img21) = (4 * width img21 * height img21)%nat.
Proof.
  apply (output_dimensions svd_diagonal img21 img21 9999).
  vm_compute. reflexivity.
Defined.

(** ** Full rank *)

Lemma reconstruct_full U Sv V m n kEff :
  svd_shape m n U Sv V -> Z.of_nat n <= kEff ->
  reconstruct U Sv V kEff = fullProduct U Sv V.
Proof.
  intros (HU & HS & HV) Hk. unfold reconstruct, fullProduct.
  rewrite (slice0_rows_all kEff U m n HU Hk).
  rewrite (slice0_rows_all kEff V n n HV Hk).
  by rewrite (slice0_all kEff Sv) by (rewrite HS; lia).
Qed.

Lemma allclose_spec tol m n (A B : matrix) :
  allclose tol m n A B = true
  <-> ∀ i j, (i < m)%nat -> (j < n)%nat ->
             near tol (entry A i j) (entry B i j) = true.
Proof.
  unfold allclose. rewrite forallb_forall. split.
  - intros H i j Hi Hj.
    specialize (H i). rewrite forallb_forall in H.
    apply H; apply in_seq; lia.
  - intros H i Hi. apply in_seq in Hi.
    rewrite forallb_forall. intros j Hj. apply in_seq in Hj.
    apply H; lia.
Qed.

(** * The asynchronous shell *)

Section ShellProperties.

Context {File Blob : Type}.
Context (decodeImage : File -> result ImageData).
Context (toBlob : ImageData -> Blob).
Context (blobSize : Blob -> nat).
Context (svd : svd_engine).

Local Abbreviation System := (@system File Blob).
Local Abbreviation Event := (@event File).
Local Abbreviation stepS := (step decodeImage toBlob blobSize svd).
Local Abbreviation pubs := (publications decodeImage toBlob blobSize svd).

Lemma afterDecode_myGen (t : task) :
  myGen (afterDecode decodeImage toBlob svd t) = myGen t.
Proof.
  unfold afterDecode. destruct (at_stage t); try done.
  by destruct (decodeImage (source t) ≫= _).
Qed.

Lemma settle_myGen (t : @task File Blob) : myGen (settle t) = myGen t.
Proof. unfold settle. by destruct (at_stage t). Qed.

Lemma afterBlob_genRef (a : AppState) (t : @task File Blob) :
  genRef (afterBlob blobSize a t) = genRef a.
Proof.
  unfold afterBlob. destruct (at_stage t); try done.
  by destruct (isStale a t).
Qed.

(** The counter never decreases. *)
Lemma genRef_step (s : System) (e : Event) :
  (genRef (app s) <= genRef (app (stepS s e)))%nat.
Proof.
  destruct e as [f|k|i|i]; simpl.
  - done.
  - unfold invoke. destruct (file (app s)); simpl; lia.
  - by destruct (tasks s !! i).
  - destruct (tasks s !! i); simpl; [|done]. by rewrite afterBlob_genRef.
Qed.

Lemma gens_bounded_step (s : System) (e : Event) :
  gens_bounded s -> gens_bounded (stepS s e).
Proof.
  unfold gens_bounded. intros Hb. destruct e as [f|k|i|i]; simpl.
  - done.
  - unfold invoke. destruct (file (app s)); simpl; [|done].
    apply Forall_app. split.
    + eapply Forall_impl; [exact Hb|]. intros t Ht. simpl in *. lia.
    + repeat constructor.
  - destruct (tasks s !! i) as [t|] eqn:Ht; simpl; [|done].
    apply Forall_insert; [done|]. rewrite afterDecode_myGen.
    by eapply (proj1 (Forall_lookup _ _) Hb).
  - destruct (tasks s !! i) as [t|] eqn:Ht; simpl; [|done].
    rewrite afterBlob_genRef.
    apply Forall_insert; [done|]. rewrite settle_myGen.
    by eapply (proj1 (Forall_lookup _ _) Hb).
Qed.

(** Only the generation that the counter holds can be published. *)
Lemma published_current (s : System) (e : Event) g :
  published s e = Some g -> g = genRef (app s).
Proof.
  destruct e as [f|k|i|i]; simpl; try done.
  destruct (tasks s !! i) as [t|]; [|done].
  destruct (at_stage t); try done.
  unfold isStale. destruct (genRef (app s) =? myGen t)%nat eqn:E; simpl; [|done].
  apply Nat.eqb_eq in E. intros ?. simplify_eq. done.
Qed.

Lemma publications_current (s : System) (es : list Event) g :
  g ∈ pubs s es -> (genRef (app s) <= g)%nat.
Proof.
  revert s. induction es as [|e rest IH]; intros s Hin.
  - simpl in Hin. by apply elem_of_nil in Hin.
  - simpl in Hin. pose proof (genRef_step s e) as Hmono.
    destruct (published s e) as [g'|] eqn:Hpub.
    + apply elem_of_cons in Hin as [->|Hin].
      * by rewrite (published_current _ _ _ Hpub).
      * specialize (IH _ Hin). lia.
    + specialize (IH _ Hin). lia.
Qed.

(** What line 91 decides for an invocation whose blob is ready. *)
Lemma blob_ready_rule (u : System) i (t : task) (b : Blob) :
  tasks u !! i = Some t -> at_stage t = AwaitBlob b ->
  if decide (myGen t = genRef (app u))
  then compressedURL (app (stepS u (BlobReady i))) = Some b
       ∧ compSize (app (stepS u (BlobReady i))) = blobSize b
       ∧ published u (BlobReady i) = Some (myGen t)
  else app (stepS u (BlobReady i)) = app u
       ∧ published u (BlobReady i) = None.
Proof.
  intros Ht Hst. simpl. rewrite Ht. simpl. unfold afterBlob, isStale.
  rewrite Hst. destruct (decide (myGen t = genRef (app u))) as [E|E].
  - rewrite E, Nat.eqb_refl. done.
  - rewrite (proj2 (Nat.eqb_neq _ _)) by done. done.
Qed.

(** The visible output changes only on an upload or a publication. *)
Lemma visible_output_frame (u : System) (e : Event) :
  published u e = None -> (∀ f, e ≠ Upload f) ->
  compressedURL (app (stepS u e)) = compressedURL (app u)
  ∧ compSize (app (stepS u e)) = compSize (app u).
Proof.
  intros Hpub Hup. destruct e as [f|k|i|i]; simpl in *.
  - by destruct (Hup f).
  - unfold invoke. by destruct (file (app u)).
  - by destruct (tasks u !! i).
  - destruct (tasks u !! i) as [t|]; [|done]. simpl.
    unfold afterBlob. destruct (at_stage t); try done.
    by destruct (isStale (app u) t).
Qed.

(** Every state reached from the mounted component keeps the bound. *)
Lemma gens_bounded_reachable (es : list Event) :
  gens_bounded (run decodeImage toBlob blobSize svd initial es).
Proof.
  unfold run. induction es as [|e rest IH] using rev_ind.
  - unfold gens_bounded. simpl. constructor.
  - rewrite foldl_app. simpl. by apply gens_bounded_step.
Qed.

(** C5.  With a file loaded, each invocation takes the next value of the
    counter as its generation, above the generation of every invocation
    before it; when the blob of an invocation is ready, its URL and size
    become the visible output if its generation is the one the counter
    holds at that moment, and otherwise the component state is left as it
    is; the visible output changes on no other event than an upload or
    such a publication; and after two invocations in a row, whatever
    events follow in whatever order, every publication carries a
    generation from the second invocation on: the first one is never
    published. *)
Theorem generation_discipline (s : System) (f : File) (k1 k2 : Z)
    (rest : list Event) :
  gens_bounded s ->
  file (app s) = Some f ->
  let g := genRef (app s) in
  let s1 := stepS s (Invoke k1) in
  let s2 := stepS s1 (Invoke k2) in
  tasks s1 = tasks s ++ [mkTask (Datatypes.S g) k1 f AwaitDecode]
  ∧ tasks s2 = tasks s1 ++ [mkTask (Datatypes.S (Datatypes.S g)) k2 f AwaitDecode]
  ∧ genRef (app s1) = Datatypes.S g
  ∧ genRef (app s2) = Datatypes.S (Datatypes.S g)
  ∧ Forall (fun t => (myGen t < Datatypes.S g)%nat) (tasks s)
  ∧ (∀ (u : System) i (t : task) (b : Blob),
        tasks u !! i = Some t -> at_stage t = AwaitBlob b ->
        if decide (myGen t = genRef (app u))
        then compressedURL (app (stepS u (BlobReady i))) = Some b
             ∧ compSize (app (stepS u (BlobReady i))) = blobSize b
             ∧ published u (BlobReady i) = Some (myGen t)
        else app (stepS u (BlobReady i)) = app u
             ∧ published u (BlobReady i) = None)
  ∧ (∀ (u : System) (e : Event),
        published u e = None -> (∀ f', e ≠ Upload f') ->
        compressedURL (app (stepS u e)) = compressedURL (app u)
        ∧ compSize (app (stepS u e)) = compSize (app u))
  ∧ (∀ g', g' ∈ pubs s (Invoke k1 :: Invoke k2 :: rest) ->
           (Datatypes.S (Datatypes.S g) <= g')%nat)
  ∧ Datatypes.S g ∉ pubs s (Invoke k1 :: Invoke k2 :: rest).
Proof.
  intros Hb Hf g s1 s2.
  assert (Hs1 : s1 = mkSystem
            (mkApp (Some f) (compressedURL (app s)) (compSize (app s)) true
                   (Datatypes.S g))
            (tasks s ++ [mkTask (Datatypes.S g) k1 f AwaitDecode])).
  { subst s1. simpl. unfold invoke. rewrite Hf. by rewrite <- Hf. }
  assert (Hs2 : s2 = mkSystem
            (mkApp (Some f) (compressedURL (app s)) (compSize (app s)) true
                   (Datatypes.S (Datatypes.S g)))
            (tasks s1 ++ [mkTask (Datatypes.S (Datatypes.S g)) k2 f AwaitDecode])).
  { subst s2. rewrite Hs1. reflexivity. }
  assert (Hpubs : ∀ g', g' ∈ pubs s (Invoke k1 :: Invoke k2 :: rest) ->
                        (Datatypes.S (Datatypes.S g) <= g')%nat).
  { intros g' Hin. simpl in Hin. change (g' ∈ pubs s2 rest) in Hin.
    apply publications_current in Hin. rewrite Hs2 in Hin. exact Hin. }
  split; [by rewrite Hs1|]. split; [by rewrite Hs2|].
  split; [by rewrite Hs1|]. split; [by rewrite Hs2|].
  split.
  { eapply Forall_impl; [exact Hb|]. intros t Ht. simpl in Ht. subst g. lia. }
  split; [apply blob_ready_rule|]. split; [apply visible_output_frame|].
  split; [exact Hpubs|].
  intros Hin. apply Hpubs in Hin. lia.
Qed.

(** C10.  Without a file the call returns at once: the system, that is the
    counter, the list of running invocations, the compressed output, the
    sizes and the in-progress flag, is what it was, and nothing is
    published. *)
Theorem invoke_without_file (s : System) (k : Z) :
  file (app s) = None ->
  stepS s (Invoke k) = s
  ∧ genRef (app (stepS s (Invoke k))) = genRef (app s)
  ∧ tasks (stepS s (Invoke k)) = tasks s
  ∧ compressedURL (app (stepS s (Invoke k))) = compressedURL (app s)
  ∧ compSize (app (stepS s (Invoke k))) = compSize (app s)
  ∧ isCompressing (app (stepS s (Invoke k))) = isCompressing (app s)
  ∧ published s (Invoke k) = None.
Proof.
  intros Hf. simpl. unfold invoke. rewrite Hf. done.
Qed.


End ShellProperties.

(** ** Sample runs *)

Lemma generation_discipline_witness :
  let rest := [Decoded 1; BlobReady 1; Decoded 0; BlobReady 0] in
  let g := genRef (app loaded) in
  let s1 := sample_step loaded (Invoke 5) in
  let s2 := sample_step s1 (Invoke 50) in
  tasks s1 = tasks loaded ++ [mkTask (Datatypes.S g) 5 img_diag AwaitDecode]
  ∧ tasks s2
    = tasks s1 ++ [mkTask (Datatypes.S (Datatypes.S g)) 50 img_diag AwaitDecode]
  ∧ genRef (app s1) = Datatypes.S g
  ∧ genRef (app s2) = Datatypes.S (Datatypes.S g)
  ∧ Forall (fun t => (myGen t < Datatypes.S g)%nat) (tasks loaded)
  ∧ (∀ (u : system) i (t : task) (b : ImageData),
        tasks u !! i = Some t -> at_stage t = AwaitBlob b ->
        if decide (myGen t = genRef (app u))
        then compressedURL (app (sample_step u (BlobReady i))) = Some b
             ∧ compSize (app (sample_step u (BlobReady i))) = sample_size b
             ∧ published u (BlobReady i) = Some (myGen t)
        else app (sample_step u (BlobReady i)) = app u
             ∧ published u (BlobReady i) = None)
  ∧ (∀ (u : system) (e : event),
        published u e = None -> (∀ f', e ≠ Upload f') ->
        compressedURL (app (sample_step u e)) = compressedURL (app u)
        ∧ compSize (app (sample_step u e)) = compSize (app u))
  ∧ (∀ g', g' ∈ sample_pubs loaded (Invoke 5 :: Invoke 50 :: rest) ->
           (Datatypes.S (Datatypes.S g) <= g')%nat)
  ∧ Datatypes.S g ∉ sample_pubs loaded (Invoke 5 :: Invoke 50 :: rest).
Proof.
  apply (generation_discipline sample_decode sample_toBlob sample_size
           svd_diagonal loaded img_diag 5 50
           [Decoded 1; BlobReady 1; Decoded 0; BlobReady 0]).
  - unfold gens_bounded. simpl. constructor.
  - reflexivity.
Defined.

(** Two requests in a row, k = 1 then k = 2; the later one finishes first
    and the earlier one afterwards.  Only generation 2 is published, and
    the visible output at the end is the rank-2 raster. *)
Example later_request_wins :
  let es := [Invoke 1; Invoke 2; Decoded 1; BlobReady 1; Decoded 0; BlobReady 0] in
  sample_pubs loaded es = [2%nat]
  ∧ compressedURL (app (sample_run loaded es)) = Some img_diag
  ∧ compSize (app (sample_run loaded es)) = 16%nat
  ∧ compressCore svd_diagonal img_diag 2 = Ok img_diag
  ∧ compressCore svd_diagonal img_diag 1
    = Ok (mkImageData
            [255; 255; 255; 255; 0; 0; 0; 255; 0; 0; 0; 255; 0; 0; 0; 255] 2 2).
Proof. vm_compute. repeat split. Qed.

Lemma invoke_without_file_witness :
  sample_step idle (Invoke 20) = idle
  ∧ genRef (app (sample_step idle (Invoke 20))) = genRef (app idle)
  ∧ tasks (sample_step idle (Invoke 20)) = tasks idle
  ∧ compressedURL (app (sample_step idle (Invoke 20)))
    = compressedURL (app idle)
  ∧ compSize (app (sample_step idle (Invoke 20))) = compSize (app idle)
  ∧ isCompressing (app (sample_step idle (Invoke 20)))
    = isCompressing (app idle)
  ∧ published idle (Invoke 20) = None.
Proof.
  apply (invoke_without_file sample_decode sample_toBlob sample_size
           svd_diagonal idle 20).
  reflexivity.
Defined.


(** * Further properties of the compute core *)

(** ** Every successful run writes gray, opaque pixels *)

Lemma forM_seq_post {St} (I : nat -> St -> Prop) (body : nat -> St -> result St)
    (a len : nat) (s s' : St) :
  I a s ->
  (∀ i t t', (a <= i < a + len)%nat -> I i t -> body i t = Ok t' ->
             I (Datatypes.S i) t') ->
  forM body (seq a len) s = Ok s' -> I (a + len)%nat s'.
Proof.
  revert a s. induction len as [|len IH]; intros a s Ha Hstep Hrun.
  - simpl in Hrun. simplify_eq. by rewrite Nat.add_0_r.
  - simpl in Hrun. destruct (body a s) as [t|e] eqn:Hb; [|done].
    replace (a + Datatypes.S len)%nat with (Datatypes.S a + len)%nat by lia.
    apply (IH (Datatypes.S a) t); [|intros i u u' Hi; apply Hstep; lia|done].
    apply (Hstep a s t); [lia|done|done].
Qed.

Lemma for_upto_post {St} (I : nat -> St -> Prop) (body : nat -> St -> result St)
    (n : nat) (s s' : St) :
  I 0%nat s ->
  (∀ i t t', (i < n)%nat -> I i t -> body i t = Ok t' -> I (Datatypes.S i) t') ->
  for_upto n body s = Ok s' -> I n s'.
Proof.
  intros H0 Hstep. apply (forM_seq_post I body 0 n s s' H0).
  intros i t t' Hi. apply Hstep. lia.
Qed.

Lemma writePixel_inv w recon r c d d' :
  writePixel w recon r c d = Ok d' ->
  ∃ v, cell recon r c = Ok v
       ∧ d' = <[((r * w + c) * 4 + 3)%nat := 255]>
                (<[((r * w + c) * 4)%nat := lumByte v]>
                   (<[((r * w + c) * 4 + 1)%nat := lumByte v]>
                      (<[((r * w + c) * 4 + 2)%nat := lumByte v]> d))).
Proof.
  unfold writePixel. destruct (cell recon r c) as [v|e]; simpl; [|done].
  intros ?. simplify_eq. by exists v.
Qed.

Lemma pixel_is_frame (d d' : list Z) w r c b :
  (∀ j, (j < 4)%nat -> d' !! ((r * w + c) * 4 + j)%nat
                       = d !! ((r * w + c) * 4 + j)%nat) ->
  pixel_is d w r c b -> pixel_is d' w r c b.
Proof.
  intros Heq (H0 & H1 & H2 & H3). unfold pixel_is.
  pose proof (Heq 0%nat) as E0. rewrite Nat.add_0_r in E0.
  rewrite E0, (Heq 1%nat), (Heq 2%nat), (Heq 3%nat) by lia. done.
Qed.

Lemma write_row_post w h recon r d d' :
  (r < h)%nat -> length d = (4 * w * h)%nat ->
  (∀ r' c', (r' < r)%nat -> (c' < w)%nat -> pixel_from recon d w r' c') ->
  for_upto w (fun c => writePixel w recon r c) d = Ok d' ->
  length d' = (4 * w * h)%nat
  ∧ ∀ r' c', (r' < Datatypes.S r)%nat -> (c' < w)%nat ->
             pixel_from recon d' w r' c'.
Proof.
  intros Hr Hlen Hprev Hrun.
  pose proof (for_upto_post
    (fun c t => length t = (4 * w * h)%nat
                ∧ (∀ r' c', (r' < r)%nat -> (c' < w)%nat ->
                            pixel_from recon t w r' c')
                ∧ (∀ c', (c' < c)%nat -> pixel_from recon t w r c'))
    (fun c => writePixel w recon r c) w d d') as Hpost.
  destruct Hpost as (HL & Hp & Hc); [| |exact Hrun|].
  - split; [done|]. split; [done|]. intros c' Hc'. lia.
  - intros c t t' Hc (HL & Hp & Hcur) Hpix.
    destruct (writePixel_inv _ _ _ _ _ _ Hpix) as (v & Hv & ->).
    split; [by rewrite store_length|].
    assert (Hidx : ((r * w + c) * 4 + 3 < length t)%nat) by (rewrite HL; nia).
    split.
    + intros r' c' Hr' Hc'. destruct (Hp r' c' Hr' Hc') as (v' & Hv' & Hpx).
      exists v'. split; [done|]. eapply pixel_is_frame; [|exact Hpx].
      intros j Hj. apply store_other. nia.
    + intros c' Hc'. destruct (decide (c' = c)) as [->|Hne].
      * exists v. split; [done|]. by apply store_same.
      * destruct (Hcur c') as (v' & Hv' & Hpx); [lia|].
        exists v'. split; [done|]. eapply pixel_is_frame; [|exact Hpx].
        intros j Hj. apply store_other. nia.
  - split; [done|]. intros r' c' Hr' Hc'.
    destruct (decide (r' = r)) as [->|Hne]; [by apply Hc|].
    apply Hp; [lia|done].
Qed.

Lemma writeRaster_post w h recon out :
  writeRaster w h recon = Ok out ->
  ∀ r c, (r < h)%nat -> (c < w)%nat -> pixel_from recon (data out) w r c.
Proof.
  unfold writeRaster, createImageData.
  destruct (bool_decide (w = 0%nat ∨ h = 0%nat)); [done|]. cbn -[Nat.mul].
  destruct (for_upto h _ _) as [d|e] eqn:Hloop; [|done].
  cbn -[Nat.mul]. intros ?. simplify_eq. cbn -[Nat.mul].
  pose proof (for_upto_post
    (fun r t => length t = (4 * w * h)%nat
                ∧ ∀ r' c', (r' < r)%nat -> (c' < w)%nat ->
                           pixel_from recon t w r' c')
    (fun r => for_upto w (fun c => writePixel w recon r c)) h
    (replicate (4 * w * h) 0) d) as Hpost.
  destruct Hpost as (_ & Hp); [| |exact Hloop|exact Hp].
  - split; [by rewrite length_replicate|]. intros r' c' Hr'. lia.
  - intros r t t' Hr (HL & Hp) Hrow.
    by apply (write_row_post w h recon r t t').
Qed.

Lemma output_dimensions_core (svd : svd_engine) (img out : ImageData) (k : Z) :
  compressCore svd img k = Ok out ->
  width out = width img ∧ height out = height img
  ∧ length (data out) = (4 * width img * height img)%nat
  ∧ ∃ recon, writeRaster (width img) (height img) recon = Ok out.
Proof.
  unfold compressCore. intros Hrun.
  destruct (prepare img) as [[[mat m] n]|e]; [|done]. simpl in Hrun.
  destruct (svd mat) as [[[U Sv] V]|e]; [|done]. simpl in Hrun.
  destruct (reconstruct U Sv V _) as [recon|e]; [|done]. simpl in Hrun.
  destruct (unorient (isTall img) recon) as [recon'|e]; [|done].
  simpl in Hrun.
  destruct (writeRaster_size _ _ _ _ Hrun) as (? & ? & ? & _).
  repeat split; try done. by exists recon'.
Qed.

(** X1.  Whatever the decomposition routine returns and whatever k is
    requested, a run that succeeds returns a grayscale, opaque raster:
    each pixel has equal R, G and B bytes and alpha 255, and each byte of
    the raster lies within 0..255. *)
Theorem output_gray_opaque (svd : svd_engine) (img out : ImageData) (k : Z) :
  compressCore svd img k = Ok out ->
  (∀ r c, (r < height img)%nat -> (c < width img)%nat ->
     ∃ b, data out !! ((r * width img + c) * 4)%nat = Some b
          ∧ data out !! ((r * width img + c) * 4 + 1)%nat = Some b
          ∧ data out !! ((r * width img + c) * 4 + 2)%nat = Some b
          ∧ data out !! ((r * width img + c) * 4 + 3)%nat = Some 255
          ∧ 0 <= b <= 255)
  ∧ (∀ i z, data out !! i = Some z -> 0 <= z <= 255).
Proof.
  intros Hrun.
  destruct (output_dimensions_core svd img out k Hrun) as (Hw & Hh & HL & recon & Hwr).
  assert (Hpix : ∀ r c, (r < height img)%nat -> (c < width img)%nat ->
            ∃ b, pixel_is (data out) (width img) r c b ∧ 0 <= b <= 255).
  { intros r c Hr Hc.
    destruct (writeRaster_post _ _ _ _ Hwr r c Hr Hc) as (v & _ & Hpx).
    exists (lumByte v). split; [done|apply lumByte_range]. }
  split.
  - intros r c Hr Hc. destruct (Hpix r c Hr Hc) as (b & (H0 & H1 & H2 & H3) & Hb).
    exists b. done.
  - intros i z Hi.
    assert (Hlt : (i < 4 * width img * height img)%nat).
    { rewrite <- HL. by eapply lookup_lt_Some. }
    assert (Hwpos : (0 < width img)%nat).
    { destruct (writeRaster_size _ _ _ _ Hwr) as (_ & _ & _ & ? & _). done. }
    destruct (byte_position _ _ i Hwpos Hlt) as (r & c & j & Hr & Hc & Hj & ->).
    destruct (Hpix r c Hr Hc) as (b & (H0 & H1 & H2 & H3) & Hb).
    destruct j as [|[|[|[|j]]]]; [| | | |lia].
    + rewrite Nat.add_0_r in Hi. rewrite H0 in Hi. by simplify_eq.
    + rewrite H1 in Hi. by simplify_eq.
    + rewrite H2 in Hi. by simplify_eq.
    + rewrite H3 in Hi. simplify_eq. lia.
Qed.

Lemma output_gray_opaque_witness :
  (∀ r c, (r < height img21)%nat -> (c < width img21)%nat ->
     ∃ b, data img21 !! ((r * width img21 + c) * 4)%nat = Some b
          ∧ data img21 !! ((r * width img21 + c) * 4 + 1)%nat = Some b
          ∧ data img21 !! ((r * width img21 + c) * 4 + 2)%nat = Some b
          ∧ data img21 !! ((r * width img21 + c) * 4 + 3)%nat = Some 255
          ∧ 0 <= b <= 255)
  ∧ (∀ i z, data img21 !! i = Some z -> 0 <= z <= 255).
Proof.
  apply (output_gray_opaque svd_diagonal img21 img21 9999).
  vm_compute. reflexivity.
Defined.

(** ** The alpha channel of the input *)

Lemma grayMatrix_alpha img p a :
  grayMatrix (mkImageData (<[(4 * p + 3)%nat := a]> (data img))
                          (width img) (height img))
  = grayMatrix img.
Proof.
  unfold grayMatrix. simpl.
  apply list_fmap_ext. intros _ r' _.
  apply list_fmap_ext. intros _ c' _.
  apply grayAt_alpha.
Qed.

(** X2.  The whole run ignores the alpha channel of the input: overwriting
    the alpha byte of any pixel changes neither the outcome nor the raster
    returned. *)
Theorem input_alpha_ignored (svd : svd_engine) (img : ImageData) (k : Z)
    (p : nat) (a : Z) :
  compressCore svd
    (mkImageData (<[(4 * p + 3)%nat := a]> (data img)) (width img) (height img))
    k
  = compressCore svd img k.
Proof.
  unfold compressCore, prepare, isTall.
  rewrite grayMatrix_alpha. reflexivity.
Qed.

(** ** Rounding absorbs small errors *)

Lemma roundTiesToEven_near_integer x v :
  (inject_Z v - (1 # 2) < x)%Q -> (x < inject_Z v + (1 # 2))%Q ->
  roundTiesToEven x = v.
Proof.
  intros Hlo Hhi.
  pose proof (Qfloor_le x) as Hf1. pose proof (Qlt_floor x) as Hf2.
  rewrite inject_Z_plus in Hf2. change (inject_Z 1) with 1%Q in Hf2.
  assert (Hle : Qfloor x < v + 1).
  { rewrite Zlt_Qlt, inject_Z_plus. change (inject_Z 1) with 1%Q. lra. }
  assert (Hge : v < Qfloor x + 2).
  { rewrite Zlt_Qlt, inject_Z_plus. change (inject_Z 2) with 2%Q. lra. }
  assert (Hcase : Qfloor x = v ∨ Qfloor x = v - 1) by lia.
  unfold roundTiesToEven.
  destruct Hcase as [E|E]; rewrite E in *.
  - destruct (Qcompare_spec x (inject_Z v + (1 # 2))) as [C|C|C]; [lra|done|lra].
  - assert (Hm : (inject_Z (v - 1) == inject_Z v - 1)%Q).
    { unfold Z.sub. rewrite inject_Z_plus. reflexivity. }
    destruct (Qcompare_spec x (inject_Z (v - 1) + (1 # 2))) as [C|C|C];
      [lra|lra|lia].
Qed.

Lemma lumByte_near_integer q v :
  0 <= v <= 255 -> (Qabs (q - inject_Z v) < 1 # 2)%Q -> lumByte (Fin q) = v.
Proof.
  intros [Hv0 Hv255] Hnear. apply Qabs_Qlt_condition in Hnear as [Hlo Hhi].
  rewrite Zle_Qle in Hv0, Hv255.
  change (inject_Z 0) with 0%Q in Hv0. change (inject_Z 255) with 255%Q in Hv255.
  rewrite lumByte_fin.
  destruct (Qlt_le_dec q 0) as [Hneg|Hpos].
  - rewrite clampQ_below by done.
    apply roundTiesToEven_near_integer; lra.
  - destruct (Qlt_le_dec 255 q) as [Hbig|Hsmall].
    + rewrite clampQ_above by done.
      apply roundTiesToEven_near_integer; lra.
    + rewrite clampQ_inside by done.
      apply roundTiesToEven_near_integer; lra.
Qed.

(** X4.  Storing an integer value clamps it and nothing else: the byte
    written for the integer z is max(0, min(z, 255)), so a byte read as a
    number and written back is the same byte. *)
Theorem integer_level_roundtrip (z : Z) :
  lumByte (ofZ z) = Z.max 0 (Z.min z 255).
Proof.
  unfold ofZ. rewrite lumByte_fin.
  destruct (Z_lt_le_dec z 0) as [Hneg|Hpos].
  - rewrite clampQ_below by (rewrite Zlt_Qlt in Hneg; exact Hneg).
    replace (Z.max 0 (Z.min z 255)) with 0 by lia. reflexivity.
  - destruct (Z_lt_le_dec 255 z) as [Hbig|Hsmall].
    + rewrite clampQ_above by (rewrite Zlt_Qlt in Hbig; exact Hbig).
      replace (Z.max 0 (Z.min z 255)) with 255 by lia. reflexivity.
    + rewrite clampQ_inside
        by (rewrite Zle_Qle in Hpos, Hsmall; assumption).
      replace (Z.max 0 (Z.min z 255)) with z by lia.
      apply roundTiesToEven_near_integer; lra.
Qed.

(** ** Quantization keeps the order of gray levels *)

Lemma clampQ_monotone x y : (x <= y)%Q -> (clampQ x <= clampQ y)%Q.
Proof.
  intros Hxy.
  destruct (Qlt_le_dec x 0) as [Hx0|Hx0];
    [rewrite (clampQ_below x) by done|];
    (destruct (Qlt_le_dec y 0) as [Hy0|Hy0];
       [rewrite (clampQ_below y) by done|]);
    try lra;
    try (destruct (Qlt_le_dec 255 x) as [Hx1|Hx1];
           [rewrite (clampQ_above x) by done
           |rewrite (clampQ_inside x) by done]);
    try (destruct (Qlt_le_dec 255 y) as [Hy1|Hy1];
           [rewrite (clampQ_above y) by done
           |rewrite (clampQ_inside y) by done]);
    lra.
Qed.

(** X5.  The byte written grows with the value: a reconstruction value
    that is not smaller never gives a darker pixel. *)
Theorem quantization_monotone (p q : Q) :
  (p <= q)%Q -> lumByte (Fin p) <= lumByte (Fin q).
Proof.
  intros Hpq. rewrite !lumByte_fin.
  by apply roundTiesToEven_monotone, clampQ_monotone.
Qed.

Lemma quantization_monotone_witness :
  lumByte (Fin (5 # 2)) <= lumByte (Fin (7 # 2)).
Proof.
  apply (quantization_monotone (5 # 2) (7 # 2)). vm_compute. discriminate.
Defined.

(** ** Gray levels *)

(** The weights 0.299, 0.587 and 0.114 sum to 1: the luminance of a pixel
    is, up to the rounding of line 56, between its smallest and its
    largest colour byte. *)
Lemma luminance_between (R G B lo hi : Z) :
  0 <= lo -> hi <= 255 ->
  lo <= R <= hi -> lo <= G <= hi -> lo <= B <= hi ->
  ∃ q, luminance (ofZ R) (ofZ G) (ofZ B) = Fin q
       ∧ (inject_Z lo - (1 # 8796093022208) <= q)%Q
       ∧ (q <= inject_Z hi + (1 # 8796093022208))%Q.
Proof.
  intros Hlo Hhi [HR1 HR2] [HG1 HG2] [HB1 HB2].
  destruct (luminance_near R G B) as (q & Hq & Hnear); [lia..|].
  exists q. split; [done|].
  apply Qabs_Qle_condition in Hnear as [N1 N2].
  rewrite Zle_Qle in HR1, HR2, HG1, HG2, HB1, HB2.
  split; lra.
Qed.

(** X3.  The luminance of a pixel is a finite number that lies, up to
    2^-43, between its smallest and its largest colour byte, and the byte
    that the raster writer stores for it lies between the two: for a pixel
    with R = G = B = v that byte is v, although the luminance itself need
    not be v. *)
Theorem gray_level_between (img : ImageData) (r c : nat) (R G B lo hi : Z) :
  (r < height img)%nat -> (c < width img)%nat ->
  data img !! ((r * width img + c) * 4)%nat = Some R ->
  data img !! ((r * width img + c) * 4 + 1)%nat = Some G ->
  data img !! ((r * width img + c) * 4 + 2)%nat = Some B ->
  0 <= lo -> hi <= 255 ->
  lo <= R <= hi -> lo <= G <= hi -> lo <= B <= hi ->
  ∃ q, entry (grayMatrix img) r c = Fin q
       ∧ (inject_Z lo - (1 # 8796093022208) <= q)%Q
       ∧ (q <= inject_Z hi + (1 # 8796093022208))%Q
       ∧ lo <= lumByte (entry (grayMatrix img) r c) <= hi.
Proof.
  intros Hr Hc HR HG HB Hlo Hhi HRb HGb HBb.
  rewrite grayMatrix_entry by done. unfold grayAt, byteAt.
  rewrite HR, HG, HB.
  destruct (luminance_between R G B lo hi) as (q & -> & Q1 & Q2); try done.
  exists q. split; [done|]. split; [done|]. split; [done|].
  assert (Hl : lumByte (Fin (inject_Z lo - (1 # 8796093022208))) = lo).
  { apply lumByte_near_integer; [lia|].
    apply Qabs_Qlt_condition. split; lra. }
  assert (Hh : lumByte (Fin (inject_Z hi + (1 # 8796093022208))) = hi).
  { apply lumByte_near_integer; [lia|].
    apply Qabs_Qlt_condition. split; lra. }
  assert (M1 : lumByte (Fin (inject_Z lo - (1 # 8796093022208)))
               <= lumByte (Fin q)).
  { rewrite !lumByte_fin. by apply roundTiesToEven_monotone, clampQ_monotone. }
  assert (M2 : lumByte (Fin q)
               <= lumByte (Fin (inject_Z hi + (1 # 8796093022208)))).
  { rewrite !lumByte_fin. by apply roundTiesToEven_monotone, clampQ_monotone. }
  lia.
Qed.

(** The pixel (1, 1, 1): its luminance is below 1, the byte stored for it
    is 1. *)
Lemma gray_level_between_witness :
  ∃ q, entry (grayMatrix (mkImageData [1; 1; 1; 255] 1 1)) 0 0 = Fin q
       ∧ (inject_Z 1 - (1 # 8796093022208) <= q)%Q
       ∧ (q <= inject_Z 1 + (1 # 8796093022208))%Q
       ∧ 1 <= lumByte (entry (grayMatrix (mkImageData [1; 1; 1; 255] 1 1)) 0 0)
         <= 1.
Proof.
  apply (gray_level_between (mkImageData [1; 1; 1; 255] 1 1) 0 0 1 1 1 1 1);
    simpl; (reflexivity || lia).
Defined.

(** ** A gray, opaque raster at full rank *)

Lemma raster_ext (d d' : list Z) (w h : nat) :
  (0 < w)%nat -> length d = (4 * w * h)%nat -> length d' = (4 * w * h)%nat ->
  (∀ r c, (r < h)%nat -> (c < w)%nat ->
          ∃ b, pixel_is d w r c b ∧ pixel_is d' w r c b) ->
  d = d'.
Proof.
  intros Hw HL HL' Hpix. apply list_eq. intros i.
  destruct (decide (i < 4 * w * h)%nat) as [Hi|Hi].
  - destruct (byte_position w h i Hw Hi) as (r & c & j & Hr & Hc & Hj & ->).
    destruct (Hpix r c Hr Hc) as (b & (A0 & A1 & A2 & A3) & (B0 & B1 & B2 & B3)).
    destruct j as [|[|[|[|j]]]]; [| | | |lia].
    + rewrite Nat.add_0_r. by rewrite A0, B0.
    + by rewrite A1, B1.
    + by rewrite A2, B2.
    + by rewrite A3, B3.
  - rewrite !lookup_ge_None_2 by lia. done.
Qed.

Lemma near_spec tol x y :
  near tol x y = true ->
  ∃ a b, x = Fin a ∧ y = Fin b ∧ (Qabs (a - b) < tol)%Q.
Proof.
  unfold near. destruct x as [| |a]; try done. destruct y as [| |b]; try done.
  destruct (Qcompare_spec (Qabs (a - b)) tol) as [C|C|C]; try done.
  intros _. by exists a, b.
Qed.

(** The matrix handed to the writer when every component is kept. *)
Lemma handed_at_full_rank (img : ImageData) (k : Z) (mat : matrix) (m n : nat)
    (U : matrix) (Sv : list num) (V P : matrix) :
  prepare img = Ok (mat, m, n) ->
  svd_shape m n U Sv V ->
  (0 < width img)%nat ->
  Z.of_nat n <= k ->
  fullProduct U Sv V = Ok (Rows P) ->
  ∃ R, (reconstruct U Sv V (effectiveRank k m n) ≫= unorient (isTall img))
       = Ok (Rows R)
       ∧ rect (height img) (width img) R
       ∧ ∀ tol, allclose tol m n P mat = true ->
                allclose tol (height img) (width img) R (grayMatrix img) = true.
Proof.
  intros Hp Hshape Hw Hk Hfull.
  destruct (prepare_shape _ _ _ _ Hp) as (Hmat & Hm & Hh & Hn & Hmx & _).
  assert (Heff : effectiveRank k m n = Z.of_nat n)
    by (unfold effectiveRank; lia).
  rewrite Heff.
  destruct (reconstruct_ok U Sv V m n (Z.of_nat n) Hshape Hm)
    as (R' & HR' & HRrect); [lia|lia|].
  clear Hn Hmx Heff Hk.
  rewrite (reconstruct_full U Sv V m n) in HR' |- * by (done || lia).
  rewrite Hfull in HR' |- *. simplify_eq. simpl.
  destruct (decide (width img <= height img)%nat) as [Htall|Hwide].
  - rewrite (prepare_tall img Hh Htall) in Hp. simplify_eq.
    unfold isTall. rewrite (proj2 (Nat.leb_le _ _) Htall). simpl.
    exists R'. done.
  - rewrite (prepare_wide img Hh) in Hp by lia. simplify_eq.
    unfold isTall. rewrite (proj2 (Nat.leb_gt _ _)) by lia. simpl.
    rewrite (transpose_ok _ _ _ HRrect Hm). simpl.
    eexists. split; [done|]. split; [by apply transposed_rect|].
    intros tol Hclose. apply allclose_spec. intros i j Hi Hj.
    rewrite (transposed_entry _ _ _ _ _ HRrect).
    rewrite <- (transposed_entry (grayMatrix img) (height img) (width img))
      by apply grayMatrix_rect.
    by apply (proj1 (allclose_spec _ _ _ _ _) Hclose).
Qed.

(** X6.  A gray, opaque raster comes back unchanged from a full-rank run:
    if every pixel of the input has R = G = B within 0..255 and alpha 255,
    k is at least min(M, N), and the untruncated product of the
    decomposition, computed as line 73 computes it, is less than 0.49 of a
    gray level away from the decomposed matrix in every entry, then the
    run returns the input raster itself. *)
Theorem gray_image_lossless (svd : svd_engine) (img : ImageData) (k : Z)
    (mat : matrix) (m n : nat) (U : matrix) (Sv : list num) (V P : matrix) :
  prepare img = Ok (mat, m, n) ->
  svd mat = Ok (U, Sv, V) ->
  svd_shape m n U Sv V ->
  Z.of_nat n <= k ->
  fullProduct U Sv V = Ok (Rows P) ->
  allclose (49 # 100) m n P mat = true ->
  (0 < width img)%nat ->
  length (data img) = (4 * width img * height img)%nat ->
  (∀ r c, (r < height img)%nat -> (c < width img)%nat ->
          ∃ v, 0 <= v <= 255 ∧ pixel_is (data img) (width img) r c v) ->
  compressCore svd img k = Ok img.
Proof.
  intros Hp Hsvd Hshape Hk Hfull Hclose Hw HL Hgray.
  destruct (handed_at_full_rank img k mat m n U Sv V P Hp Hshape Hw Hk Hfull)
    as (R & HR & HRrect & Hall).
  specialize (Hall _ Hclose).
  destruct (prepare_shape _ _ _ _ Hp) as (_ & _ & Hh & _).
  unfold compressCore. rewrite Hp. simpl. rewrite Hsvd. simpl.
  destruct (reconstruct U Sv V (effectiveRank k m n)) as [recon|e];
    [|done]. simpl in HR |- *. rewrite HR. simpl.
  destruct (writeRaster_rows (width img) (height img) R Hw Hh)
    as (d & Hd & HLd & Hpix); [by rewrite (rect_length _ _ _ HRrect)|].
  rewrite Hd. f_equal.
  assert (d = data img) as ->; [|by destruct img].
  apply (raster_ext _ _ (width img) (height img)); try done.
  intros r c Hr Hc. destruct (Hgray r c Hr Hc) as (v & Hv & Hin).
  exists v. split; [|done].
  pose proof (proj1 (allclose_spec _ _ _ _ _) Hall r c Hr Hc) as Hnear.
  apply near_spec in Hnear as (a & b & Ha & Hb & Hab).
  rewrite grayMatrix_entry in Hb by done.
  destruct Hin as (I0 & I1 & I2 & _).
  unfold grayAt, byteAt in Hb. rewrite I0, I1, I2 in Hb.
  destruct (luminance_between v v v v v) as (q & Hq & Hq1 & Hq2); [lia..|].
  rewrite Hq in Hb. injection Hb as <-.
  assert (Hbyte : lumByte (entry R r c) = v).
  { rewrite Ha. apply lumByte_near_integer; [done|].
    apply Qabs_Qlt_condition. apply Qabs_Qlt_condition in Hab. lra. }
  specialize (Hpix r c Hr Hc). unfold pixel_written in Hpix.
  rewrite Hbyte in Hpix. exact Hpix.
Qed.

Lemma gray_image_lossless_witness :
  compressCore svd_diagonal img21 1 = Ok img21.
Proof.
  apply (gray_image_lossless svd_diagonal img21 1 mat21 2 1
           (identity_rows 2 1) S21 (identity_rows 1 1) product21).
  - reflexivity.
  - reflexivity.
  - repeat split; repeat constructor.
  - simpl. lia.
  - vm_compute. reflexivity.
  - vm_compute. reflexivity.
  - simpl. lia.
  - reflexivity.
  - intros r c Hr Hc. simpl in Hr, Hc.
    destruct r as [|r]; [|lia]. destruct c as [|[|c]]; [| |lia].
    + exists 255. split; [lia|]. repeat split.
    + exists 0. split; [lia|]. repeat split.
Defined.

(** * Further properties of the shell and of the component *)

Section ComponentProperties.

Context {File Blob : Type}.
Context (decodeImage : File -> result ImageData).
Context (toBlob : ImageData -> Blob).
Context (blobSize : Blob -> nat).
Context (svd : svd_engine).

Local Abbreviation System := (@system File Blob).
Local Abbreviation Event := (@event File).
Local Abbreviation stepS := (step decodeImage toBlob blobSize svd).
Local Abbreviation runS := (run decodeImage toBlob blobSize svd).
Local Abbreviation pubs := (publications decodeImage toBlob blobSize svd).

(** ** Generations count the invocations *)

Lemma gens_indexed_step (s : System) (e : Event) :
  gens_indexed s -> gens_indexed (stepS s e).
Proof.
  intros [Hlen Hidx]. destruct e as [f|k|i|i]; simpl.
  - done.
  - unfold invoke. destruct (file (app s)); [|done]. split; simpl.
    + rewrite length_app. simpl. lia.
    + intros j t Hj. apply lookup_app_Some in Hj as [Hj|[Hge Hj]].
      * by apply Hidx.
      * apply list_lookup_singleton_Some in Hj as [Hz <-]. simpl. lia.
  - destruct (tasks s !! i) as [t|] eqn:Ht; [|done]. split; simpl.
    + by rewrite length_insert.
    + intros j u Hj. apply list_lookup_insert_Some in Hj as [(<- & <- & _)|[_ Hj]].
      * rewrite afterDecode_myGen. by apply Hidx.
      * by apply Hidx.
  - destruct (tasks s !! i) as [t|] eqn:Ht; [|done]. split; simpl.
    + by rewrite length_insert, afterBlob_genRef.
    + intros j u Hj. apply list_lookup_insert_Some in Hj as [(<- & <- & _)|[_ Hj]].
      * rewrite settle_myGen. by apply Hidx.
      * by apply Hidx.
Qed.

Lemma gens_indexed_run (s : System) (es : list Event) :
  gens_indexed s -> gens_indexed (runS s es).
Proof.
  unfold run. revert s. induction es as [|e rest IH]; intros s Hs; [done|].
  simpl. by apply IH, gens_indexed_step.
Qed.

Lemma gens_indexed_initial : gens_indexed (@initial File Blob).
Proof. split; [done|]. intros i t Hi. simpl in Hi. by destruct i. Qed.

(** X7.  In every state reached from the mounted component, the counter
    equals the number of invocations made so far, the i-th of them (from
    0) carries the generation i + 1, and so no two invocations share a
    generation. *)
Theorem generations_number_invocations (es : list Event) :
  let s := runS initial es in
  genRef (app s) = length (tasks s)
  ∧ (∀ i t, tasks s !! i = Some t -> myGen t = Datatypes.S i)
  ∧ (∀ i j t u, tasks s !! i = Some t -> tasks s !! j = Some u ->
                myGen t = myGen u -> i = j).
Proof.
  intros s.
  destruct (gens_indexed_run initial es gens_indexed_initial) as [Hlen Hidx].
  fold s in Hlen, Hidx.
  split; [done|]. split; [exact Hidx|].
  intros i j t u Hi Hj Heq.
  rewrite (Hidx i t Hi), (Hidx j u Hj) in Heq. lia.
Qed.

(** ** Publications follow the order of the requests *)

Lemma pubs_above (s : System) (es : list Event) (g : nat) :
  gens_indexed s -> (g <= genRef (app s))%nat ->
  (∀ i t, tasks s !! i = Some t -> myGen t = g -> at_stage t = Settled) ->
  Forall (fun g' => (g < g')%nat) (pubs s es).
Proof.
  revert s. induction es as [|e rest IH]; intros s Hs Hg Hset; [constructor|].
  assert (Hnext : Forall (fun g' => (g < g')%nat) (pubs (stepS s e) rest)).
  { apply IH.
    - by apply gens_indexed_step.
    - pose proof (genRef_step decodeImage toBlob blobSize svd s e). lia.
    - destruct Hs as [Hlen Hidx].
      destruct e as [f|k|i|i]; simpl.
      + done.
      + unfold invoke. destruct (file (app s)); [|done]. simpl.
        intros j t Hj Hgen. apply lookup_app_Some in Hj as [Hj|[Hge Hj]].
        * by apply (Hset j).
        * apply list_lookup_singleton_Some in Hj as [Hz <-].
          simpl in Hgen. lia.
      + destruct (tasks s !! i) as [t|] eqn:Ht; [|done]. simpl.
        intros j u Hj Hgen.
        apply list_lookup_insert_Some in Hj as [(<- & <- & _)|[_ Hj]].
        * rewrite afterDecode_myGen in Hgen.
          unfold afterDecode. by rewrite (Hset i t Ht Hgen), (Hset i t Ht Hgen).
        * by apply (Hset j).
      + destruct (tasks s !! i) as [t|] eqn:Ht; [|done]. simpl.
        intros j u Hj Hgen.
        apply list_lookup_insert_Some in Hj as [(<- & <- & _)|[_ Hj]].
        * rewrite settle_myGen in Hgen.
          unfold settle. by rewrite (Hset i t Ht Hgen), (Hset i t Ht Hgen).
        * by apply (Hset j). }
  simpl. destruct (published s e) as [g'|] eqn:Hpub; [|done].
  constructor; [|done].
  pose proof (published_current s e g' Hpub) as Hcur.
  destruct e as [f|k|i|i]; simpl in Hpub; try done.
  destruct (tasks s !! i) as [t|] eqn:Ht; [|done].
  destruct (at_stage t) as [|b|] eqn:Hst; try done.
  destruct (isStale (app s) t); [done|]. simplify_eq.
  destruct (decide (myGen t = g)) as [E|E]; [|lia].
  rewrite (Hset i t Ht E) in Hst. done.
Qed.

Lemma pubs_sorted (s : System) (es : list Event) :
  gens_indexed s -> StronglySorted lt (pubs s es).
Proof.
  revert s. induction es as [|e rest IH]; intros s Hs; [constructor|].
  pose proof (gens_indexed_step s e Hs) as Hs'.
  simpl. destruct (published s e) as [g|] eqn:Hpub; [|by apply IH].
  constructor; [by apply IH|].
  apply pubs_above; [done| |].
  - rewrite (published_current s e g Hpub). apply genRef_step.
  - destruct e as [f|k|i|i]; simpl in Hpub; try done.
    destruct (tasks s !! i) as [t|] eqn:Ht; [|done].
    destruct (at_stage t) as [|b|] eqn:Hst; try done.
    destruct (isStale (app s) t); [done|]. simplify_eq.
    destruct Hs' as [_ Hidx']. destruct Hs as [_ Hidx].
    intros j u Hj Hgen. pose proof (Hidx' j u Hj) as Hju.
    rewrite (Hidx i t Ht) in Hgen.
    assert (j = i) as -> by lia.
    simpl in Hj. rewrite Ht in Hj. simpl in Hj.
    rewrite list_lookup_insert_eq in Hj by by eapply lookup_lt_Some.
    simplify_eq. unfold settle. by rewrite Hst.
Qed.

(** X8.  Along every run from the mounted component the published
    generations strictly increase: a result becomes visible at most once,
    and never after the result of a later request. *)
Theorem publications_increase (es : list Event) :
  StronglySorted lt (pubs initial es).
Proof. apply pubs_sorted, gens_indexed_initial. Qed.

(** ** The component keeps its state consistent with the latest request *)

Local Abbreviation Component := (@component File Blob).
Local Abbreviation Task := (@task File Blob).
Local Abbreviation actS := (act decodeImage toBlob blobSize svd).
Local Abbreviation playS := (play decodeImage toBlob blobSize svd).
Local Abbreviation ok := (consistent decodeImage toBlob blobSize svd).
Local Abbreviation agrees := (latest_agrees decodeImage toBlob blobSize svd).
Local Abbreviation outcomeS := (outcome decodeImage svd).
Local Abbreviation derived := (from_file decodeImage toBlob svd).

Lemma outcome_same (t u : Task) :
  source u = source t -> kValue u = kValue t -> outcomeS u = outcomeS t.
Proof. unfold outcome. by intros -> ->. Qed.

Lemma outcome_derived (t : Task) out :
  outcomeS t = Ok out -> derived (source t) (toBlob out).
Proof.
  unfold outcome. destruct (decodeImage (source t)) as [img|e] eqn:Hd; [|done].
  simpl. intros Hc. by exists img, (kValue t), out.
Qed.

Lemma invoke_consistent (s : System) (f : File) (v : Z) :
  gens_indexed s -> file (app s) = Some f ->
  (∀ b, compressedURL (app s) = Some b ->
        derived f b ∧ compSize (app s) = blobSize b) ->
  ok (mkComponent (stepS s (Invoke v)) v).
Proof.
  intros Hs Hf Hvis. unfold consistent.
  split; [by apply gens_indexed_step|].
  simpl. unfold invoke. rewrite Hf. simpl.
  split; [done|].
  eexists. split.
  - rewrite length_app. simpl.
    replace (pred (length (tasks s) + 1)) with (length (tasks s)) by lia.
    by apply list_lookup_middle.
  - done.
Qed.

Lemma resume_consistent (c : Component) (i : nat) :
  ok c -> ok (actS c (Resume i)).
Proof.
  destruct c as [s k]. unfold consistent. simpl. intros [Hs Hfile].
  split; [by apply (gens_indexed_step s (Decoded i))|].
  destruct (tasks s !! i) as [t|] eqn:Ht; [|done]. simpl.
  destruct (file (app s)) as [f|].
  2:{ destruct Hfile as (Hnil & _). rewrite Hnil in Ht. by destruct i. }
  destruct Hfile as (Hvis & tl & Htl & Hsrc & Hk & Hag).
  split; [done|]. rewrite length_insert.
  destruct (decide (i = pred (length (tasks s)))) as [->|Hne].
  - rewrite Ht in Htl. simplify_eq.
    exists (afterDecode decodeImage toBlob svd tl).
    split; [apply list_lookup_insert_eq; by eapply lookup_lt_Some|].
    unfold latest_agrees in Hag |- *. unfold afterDecode.
    destruct (at_stage tl) as [|b|] eqn:Hst.
    + change (img ← decodeImage (source tl); compressCore svd img (kValue tl))
        with (outcomeS tl).
      destruct (outcomeS tl) as [out|e] eqn:Hout; simpl.
      * split; [done|]. split; [done|]. split; [done|].
        exists out. split; [|done].
        rewrite <- Hout. by apply outcome_same.
      * split; [done|]. split; [done|].
        erewrite (outcome_same tl); [|done..]. by rewrite Hout.
    + rewrite Hst. done.
    + rewrite Hst. done.
  - exists tl. by rewrite list_lookup_insert_ne.
Qed.

Lemma afterBlob_stale (a : AppState) (t : Task) :
  genRef a ≠ myGen t -> afterBlob blobSize a t = a.
Proof.
  intros Hne. unfold afterBlob, isStale. destruct (at_stage t); try done.
  by rewrite (proj2 (Nat.eqb_neq _ _) Hne).
Qed.

Lemma finish_consistent (c : Component) (i : nat) :
  ok c -> ok (actS c (Finish i)).
Proof.
  destruct c as [s k]. unfold consistent. simpl. intros [Hs Hfile].
  split; [by apply (gens_indexed_step s (BlobReady i))|].
  destruct (tasks s !! i) as [t|] eqn:Ht; [|done]. simpl.
  destruct Hs as [Hlen Hidx].
  pose proof (lookup_lt_Some _ _ _ Ht) as Hi.
  pose proof (Hidx i t Ht) as Hgen.
  destruct (file (app s)) as [f|] eqn:Hf.
  2:{ destruct Hfile as (Hnil & _). rewrite Hnil in Ht. by destruct i. }
  destruct Hfile as (Hvis & tl & Htl & Hsrc & Hk & Hag).
  rewrite length_insert.
  destruct (decide (i = pred (length (tasks s)))) as [->|Hne].
  - rewrite Ht in Htl. simplify_eq.
    unfold latest_agrees in Hag. unfold afterBlob, settle, isStale.
    destruct (at_stage tl) as [|b|] eqn:Hst.
    + rewrite Hf. split; [done|]. exists tl.
      rewrite list_lookup_insert_eq by done.
      unfold latest_agrees. by rewrite Hst.
    + destruct Hag as (Hic & out & Hout & ->).
      assert ((genRef (app s) =? myGen tl)%nat = true) as ->
        by (apply Nat.eqb_eq; lia).
      simpl. rewrite Hf. split.
      * intros b' Hb'. simplify_eq. split; [|done].
        by apply outcome_derived.
      * eexists. split; [by apply list_lookup_insert_eq|].
        split; [done|]. split; [done|].
        unfold latest_agrees. simpl.
        erewrite (outcome_same tl); [|done..]. by rewrite Hout.
    + rewrite Hf. split; [done|]. exists tl.
      rewrite list_lookup_insert_eq by done.
      unfold latest_agrees. by rewrite Hst.
  - rewrite afterBlob_stale by lia. rewrite Hf. split; [done|].
    exists tl. by rewrite list_lookup_insert_ne.
Qed.

Lemma choose_consistent (c : Component) (f : option File) :
  ok c -> ok (actS c (Choose f)).
Proof.
  destruct f as [f|]; [|done].
  destruct c as [s k]. intros [Hs _]. simpl in Hs.
  unfold act, effectKFile. simpl.
  apply (invoke_consistent
           (mkSystem (handleUpload f (app s)) (tasks s)) f k); [|done|done].
  exact (gens_indexed_step s (Upload f) Hs).
Qed.

Lemma slide_consistent (c : Component) (v : Z) :
  ok c -> ok (actS c (Slide v)).
Proof.
  unfold act. case_bool_decide; [done|].
  destruct c as [s k]. intros [Hs Hfile]. simpl in *.
  unfold effectKFile. simpl.
  destruct (file (app s)) as [f|] eqn:Hf.
  - destruct Hfile as (Hvis & _).
    by apply (invoke_consistent s f v).
  - unfold consistent. simpl. by rewrite Hf.
Qed.

Lemma act_consistent (c : Component) (a : action) : ok c -> ok (actS c a).
Proof.
  destruct a as [f|v|i|i].
  - apply choose_consistent.
  - apply slide_consistent.
  - apply resume_consistent.
  - apply finish_consistent.
Qed.

Lemma mounted_consistent : ok mounted.
Proof.
  unfold consistent. simpl. split; [|done].
  split; [done|]. intros i t Hi. by destruct i.
Qed.

Lemma play_consistent (acts : list action) : ok (playS mounted acts).
Proof.
  unfold play. induction acts as [|a rest IH] using rev_ind.
  - apply mounted_consistent.
  - rewrite foldl_app. simpl. by apply act_consistent.
Qed.

Lemma afterDecode_kValue (t : Task) :
  kValue (afterDecode decodeImage toBlob svd t) = kValue t.
Proof.
  unfold afterDecode. destruct (at_stage t); try done.
  by destruct (decodeImage (source t) ≫= _).
Qed.

Lemma settle_kValue (t : Task) : kValue (settle t) = kValue t.
Proof. unfold settle. by destruct (at_stage t). Qed.

(** X9.  In every state reached from the mounted component with a file
    loaded, the compressed pane shows either the text "Compressing…" or an
    image that is a compression of the file now loaded, with its size in
    [compSize]; it is never empty and never shows a result of an earlier
    file. *)
Theorem pane_shows_current_file (acts : list action) (f : File) :
  let c := playS mounted acts in
  file (app (sys c)) = Some f ->
  (∃ b, compressedPane (app (sys c)) = ShowImage b
        ∧ from_file decodeImage toBlob svd f b
        ∧ compSize (app (sys c)) = blobSize b)
  ∨ compressedPane (app (sys c)) = ShowText "Compressing…".
Proof.
  intros c Hf. destruct (play_consistent acts) as [_ Hfile].
  fold c in Hfile. simpl in Hfile. rewrite Hf in Hfile.
  destruct Hfile as (Hvis & tl & _ & _ & _ & Hag).
  unfold compressedPane.
  destruct (compressedURL (app (sys c))) as [b|] eqn:Hurl.
  - left. exists b. destruct (Hvis b eq_refl). done.
  - right. unfold latest_agrees in Hag.
    destruct (at_stage tl).
    + by rewrite Hag.
    + destruct Hag as [-> _]. done.
    + destruct (outcomeS tl).
      * destruct Hag as (Hurl' & _). by rewrite Hurl in Hurl'.
      * by rewrite Hag.
Qed.

(** X10.  When no invocation is in flight and the file now loaded
    compresses at the slider value now selected, the visible output is
    exactly that compression: its blob and its size are shown and the
    in-progress flag is off. *)
Theorem settled_output_matches_selection (acts : list action) (f : File)
    (img out : ImageData) :
  let c := playS mounted acts in
  file (app (sys c)) = Some f ->
  decodeImage f = Ok img ->
  compressCore svd img (kState c) = Ok out ->
  Forall (fun t => at_stage t = Settled) (tasks (sys c)) ->
  compressedURL (app (sys c)) = Some (toBlob out)
  ∧ compSize (app (sys c)) = blobSize (toBlob out)
  ∧ isCompressing (app (sys c)) = false
  ∧ compressedPane (app (sys c)) = ShowImage (toBlob out).
Proof.
  intros c Hf Hdec Hcore Hall. destruct (play_consistent acts) as [_ Hfile].
  fold c in Hfile. simpl in Hfile. rewrite Hf in Hfile.
  destruct Hfile as (_ & tl & Htl & Hsrc & Hk & Hag).
  unfold latest_agrees in Hag.
  rewrite (proj1 (Forall_lookup _ _) Hall _ _ Htl) in Hag.
  assert (Hout : outcomeS tl = Ok out).
  { unfold outcome. rewrite Hsrc, Hdec. simpl. by rewrite Hk. }
  rewrite Hout in Hag. destruct Hag as (Hurl & Hsize & Hflag).
  unfold compressedPane. by rewrite Hurl.
Qed.

(** X11.  While the file now loaded fails to decode or to compress at the
    slider value now selected, the in-progress flag stays set in every
    state reached, also after the failed invocation has ended: no path of
    the code clears it on failure. *)
Theorem failure_leaves_flag_set (acts : list action) (f : File) (e : exn) :
  let c := playS mounted acts in
  file (app (sys c)) = Some f ->
  (img ← decodeImage f; compressCore svd img (kState c)) = Throw e ->
  isCompressing (app (sys c)) = true.
Proof.
  intros c Hf Hfail. destruct (play_consistent acts) as [_ Hfile].
  fold c in Hfile. simpl in Hfile. rewrite Hf in Hfile.
  destruct Hfile as (_ & tl & _ & Hsrc & Hk & Hag).
  assert (Hout : outcomeS tl = Throw e).
  { unfold outcome. by rewrite Hsrc, Hk. }
  unfold latest_agrees in Hag. rewrite Hout in Hag.
  destruct (at_stage tl); [done| |done].
  by destruct Hag as (_ & out & ? & _).
Qed.

(** X12.  If every slider event carries a value within 1..100, the range
    the slider is given, then the selected k and the k of every invocation
    ever started lie within 1..100: no request with k below 1 reaches the
    pipeline. *)
Theorem slider_bounds_requests (acts : list action) :
  Forall (fun a => ∀ v, a = Slide v -> 1 <= v <= 100) acts ->
  let c := playS mounted acts in
  1 <= kState c <= 100
  ∧ Forall (fun t => 1 <= kValue t <= 100) (tasks (sys c)).
Proof.
  unfold play. induction acts as [|a rest IH] using rev_ind; intros Hall.
  - simpl. split; [lia|constructor].
  - apply Forall_app in Hall as [Hrest Ha].
    apply Forall_inv in Ha. specialize (IH Hrest).
    rewrite foldl_app. simpl in IH |- *.
    set (c := foldl actS mounted rest) in *. destruct IH as [Hk Ht].
    destruct a as [[f|]|v|i|i]; simpl.
    + unfold effectKFile. simpl. split; [done|].
      unfold invoke. simpl. apply Forall_app. split; [done|].
      by apply Forall_singleton.
    + done.
    + case_bool_decide; [done|]. specialize (Ha v eq_refl).
      unfold effectKFile. simpl.
      destruct (file (app (sys c))) eqn:Hf; simpl; [|done].
      split; [done|]. unfold invoke. rewrite Hf. simpl.
      apply Forall_app. split; [done|]. by apply Forall_singleton.
    + split; [done|].
      destruct (tasks (sys c) !! i) as [t|] eqn:Hi; [|done]. simpl.
      apply Forall_insert; [done|]. rewrite afterDecode_kValue.
      by apply (proj1 (Forall_lookup _ _) Ht i).
    + split; [done|].
      destruct (tasks (sys c) !! i) as [t|] eqn:Hi; [|done]. simpl.
      apply Forall_insert; [done|]. rewrite settle_kValue.
      by apply (proj1 (Forall_lookup _ _) Ht i).
Qed.

End ComponentProperties.

(** ** Sample runs of the component *)

Lemma pane_shows_current_file_witness :
  let c := sample_play sample_mounted [Choose (Some img_diag)] in
  (∃ b, compressedPane (app (sys c)) = ShowImage b
        ∧ from_file sample_decode sample_toBlob svd_diagonal img_diag b
        ∧ compSize (app (sys c)) = sample_size b)
  ∨ compressedPane (app (sys c)) = ShowText "Compressing…".
Proof.
  apply (pane_shows_current_file sample_decode sample_toBlob sample_size
           svd_diagonal [Choose (Some img_diag)] img_diag).
  reflexivity.
Defined.

Lemma settled_output_matches_selection_witness :
  let c := sample_play sample_mounted
             [Choose (Some img_diag); Slide 2; Resume 1; Finish 1;
              Resume 0; Finish 0] in
  compressedURL (app (sys c)) = Some (sample_toBlob img_diag)
  ∧ compSize (app (sys c)) = sample_size (sample_toBlob img_diag)
  ∧ isCompressing (app (sys c)) = false
  ∧ compressedPane (app (sys c)) = ShowImage (sample_toBlob img_diag).
Proof.
  apply (settled_output_matches_selection sample_decode sample_toBlob
           sample_size svd_diagonal
           [Choose (Some img_diag); Slide 2; Resume 1; Finish 1;
            Resume 0; Finish 0]
           img_diag img_diag img_diag).
  - reflexivity.
  - reflexivity.
  - vm_compute. reflexivity.
  - vm_compute. repeat constructor.
Defined.

Lemma failure_leaves_flag_set_witness :
  let c := sample_play sample_mounted
             [Choose (Some img_diag); Slide 0; Resume 1; Finish 1] in
  isCompressing (app (sys c)) = true.
Proof.
  apply (failure_leaves_flag_set sample_decode sample_toBlob sample_size
           svd_diagonal
           [Choose (Some img_diag); Slide 0; Resume 1; Finish 1]
           img_diag (Error "numeric.dot only works on vectors and matrices")).
  - reflexivity.
  - vm_compute. reflexivity.
Defined.

Lemma slider_bounds_requests_witness :
  let c := sample_play sample_mounted
             [Slide 50; Choose (Some img_diag); Slide 7] in
  1 <= kState c <= 100
  ∧ Forall (fun t => 1 <= kValue t <= 100) (tasks (sys c)).
Proof.
  apply (slider_bounds_requests sample_decode sample_toBlob sample_size
           svd_diagonal [Slide 50; Choose (Some img_diag); Slide 7]).
  repeat (apply Forall_cons_2; [intros v Hv; simplify_eq; lia|]).
  apply Forall_nil_2.
Defined.

(** * Object URLs *)

Section URLProperties.

Context {File Blob : Type}.
Context (decodeImage : File -> result ImageData).
Context (toBlob : ImageData -> Blob).
Context (blobSize : Blob -> nat).
Context (svd : svd_engine).

Local Abbreviation Page := (@page File Blob).
Local Abbreviation System := (@system File Blob).
Local Abbreviation stepS := (step decodeImage toBlob blobSize svd).
Local Abbreviation actS := (act decodeImage toBlob blobSize svd).
Local Abbreviation actU := (actURLs decodeImage toBlob blobSize svd).
Local Abbreviation playU := (playURLs decodeImage toBlob blobSize svd).

Lemma elem_of_revokeIf (url : option nat) (r : list nat) (u : nat) :
  u ∈ revokeIf url r <-> url = Some u ∨ u ∈ r.
Proof.
  destruct url as [x|]; simpl.
  - rewrite elem_of_cons. split; intros [H|H]; simplify_eq; auto.
  - split; [auto|]. by intros [H|H].
Qed.

Lemma Forall_revokeIf (P : nat -> Prop) (url : option nat) (r : list nat) :
  (∀ u, url = Some u -> P u) -> Forall P r -> Forall P (revokeIf url r).
Proof.
  intros Hu Hr. destruct url as [x|]; simpl; [|done].
  constructor; [by apply Hu|done].
Qed.

Lemma unpublished_keeps_app (s : System) (i : nat) :
  published s (BlobReady i) = None -> app (stepS s (BlobReady i)) = app s.
Proof.
  simpl. destruct (tasks s !! i) as [t|]; [|done]. simpl.
  unfold afterBlob. destruct (at_stage t); try done.
  by destruct (isStale (app s) t).
Qed.

Lemma published_sets_url (s : System) (i g : nat) :
  published s (BlobReady i) = Some g ->
  compressedURL (app (stepS s (BlobReady i))) ≠ None
  ∧ file (app (stepS s (BlobReady i))) = file (app s).
Proof.
  simpl. destruct (tasks s !! i) as [t|]; [|done]. simpl.
  unfold afterBlob. destruct (at_stage t); try done.
  by destruct (isStale (app s) t).
Qed.

Lemma urls_ok_act (p : Page) (a : action) :
  urls_ok p -> urls_ok (actU p a).
Proof.
  intros (Hrev & Horig & Hcomp & Hcap & Hall & Hgone & Hc & Ho).
  assert (Hcleanup : Forall (fun u => (u < Datatypes.S (created p))%nat)
            (cleanupURLs (origURL p) (compURL p) (revoked p))).
  { apply Forall_revokeIf; [intros u Hu; destruct (Hcomp u Hu); lia|].
    apply Forall_revokeIf; [intros u Hu; pose proof (Horig u Hu); lia|].
    eapply Forall_impl; [exact Hrev|]. intros u Hu. simpl in Hu. lia. }
  assert (Hcap' : Forall (fun cu => ∀ u, cu = Some u ->
                                    (u < Datatypes.S (created p))%nat)
                         (captured p)).
  { eapply Forall_impl; [exact Hcap|]. intros cu Hcu u Hu.
    pose proof (Hcu u Hu). lia. }
  destruct a as [[f|]|v|i|i]; [simpl|done|simpl|simpl|unfold actURLs].
  - (* a file is chosen *)
    unfold uploadURLs, urls_ok. simpl.
    split.
    { apply Forall_revokeIf; [intros u Hu; destruct (Hcomp u Hu); lia|].
      apply Forall_revokeIf; [intros u Hu; pose proof (Horig u Hu); lia|].
      apply Forall_revokeIf; [intros u Hu; destruct (Hcomp u Hu); lia|].
      apply Forall_revokeIf; [intros u Hu; pose proof (Horig u Hu); lia|].
      eapply Forall_impl; [exact Hrev|]. intros u Hu. simpl in Hu. lia. }
    split; [intros u Hu; simplify_eq; lia|].
    split; [done|].
    split; [apply Forall_app; split; [done|by apply Forall_singleton]|].
    split.
    { intros u Hu. destruct (decide (u = created p)) as [->|Hne]; [auto|].
      left. unfold cleanupURLs. rewrite !elem_of_revokeIf.
      destruct (Hall u) as [H|[H|H]]; [lia|auto..]. }
    split; [done|].
    unfold effectKFile, invoke. simpl. done.
  - (* the slider moves *)
    case_bool_decide; [done|].
    unfold effectKFile. simpl.
    destruct (file (app (sys (comp p)))) as [f|] eqn:Hf; unfold urls_ok; simpl.
    + split; [done|]. split; [done|]. split; [done|].
      split.
      { apply Forall_app. split; [done|]. apply Forall_singleton.
        intros u Hu. by destruct (Hcomp u Hu). }
      split; [done|]. split; [done|].
      unfold invoke. rewrite Hf. simpl. done.
    + by rewrite Hf.
  - (* an invocation resumes after decoding *)
    unfold urls_ok. simpl.
    assert (app (stepS (sys (comp p)) (Decoded i)) = app (sys (comp p))) as Happ.
    { simpl. by destruct (tasks (sys (comp p)) !! i). }
    simpl in Happ. by rewrite Happ.
  - (* an invocation finishes *)
    destruct (published (sys (comp p)) (BlobReady i)) as [g|] eqn:Hpub.
    + destruct (published_sets_url _ _ _ Hpub) as [Hurl Hfile].
      simpl in Hurl, Hfile.
      unfold publishURLs, urls_ok. simpl.
      assert (Hrev' : Forall (fun u => (u < Datatypes.S (created p))%nat)
                (cleanupURLs (origURL p) (compURL p)
                   (revokeIf (default None (captured p !! i)) (revoked p)))).
      { apply Forall_revokeIf; [intros u Hu; destruct (Hcomp u Hu); lia|].
        apply Forall_revokeIf; [intros u Hu; pose proof (Horig u Hu); lia|].
        apply Forall_revokeIf.
        - intros u Hu. destruct (captured p !! i) as [cu|] eqn:Hi; [|done].
          simpl in Hu.
          pose proof (proj1 (Forall_lookup _ _) Hcap _ _ Hi u Hu). lia.
        - eapply Forall_impl; [exact Hrev|]. intros u Hu. simpl in Hu. lia. }
      split; [done|].
      split; [intros u Hu; pose proof (Horig u Hu); lia|].
      split.
      { intros u Hu. simplify_eq. split; [lia|]. intros Hin.
        assert (Hlt : (created p < created p)%nat); [|lia].
        unfold cleanupURLs in Hin. rewrite !elem_of_revokeIf in Hin.
        destruct Hin as [Hin|[Hin|[Hin|Hin]]].
        - by destruct (Hcomp _ Hin).
        - by apply Horig.
        - destruct (captured p !! i) as [cu|] eqn:Hi; [|done]. simpl in Hin.
          by apply (proj1 (Forall_lookup _ _) Hcap _ _ Hi).
        - by apply (proj1 (Forall_forall _ _) Hrev). }
      split; [done|].
      split.
      { intros u Hu. destruct (decide (u = created p)) as [->|Hne]; [auto|].
        destruct (Hall u) as [H|[H|H]]; [lia| |auto|].
        - left. unfold cleanupURLs. rewrite !elem_of_revokeIf. auto.
        - left. unfold cleanupURLs. rewrite !elem_of_revokeIf. auto. }
      split.
      { intros u Hu _. unfold cleanupURLs. rewrite !elem_of_revokeIf. auto. }
      split; [split; [done|by intros ?]|].
      by rewrite Hfile.
    + unfold urls_ok. simpl.
      pose proof (unpublished_keeps_app _ _ Hpub) as Happ.
      simpl in Happ. by rewrite Happ.
Qed.

Lemma urls_ok_mounted : urls_ok (@mountedPage File Blob).
Proof.
  unfold urls_ok. simpl.
  split; [constructor|]. split; [done|]. split; [done|].
  split; [constructor|]. split; [intros u Hu; lia|]. done.
Qed.

Lemma urls_ok_play (acts : list action) : urls_ok (playU mountedPage acts).
Proof.
  unfold playURLs. induction acts as [|a rest IH] using rev_ind.
  - apply urls_ok_mounted.
  - rewrite foldl_app. simpl. by apply urls_ok_act.
Qed.

(** X13.  In every state reached from the mounted component, the URL held
    in [compressedURL] has not been revoked: the compressed image on
    display keeps a live URL. *)
Theorem compressed_url_stays_valid (acts : list action) (u : nat) :
  let p := playU mountedPage acts in
  compURL p = Some u -> u ∉ revoked p.
Proof.
  intros p Hu. destruct (urls_ok_play acts) as (_ & _ & Hcomp & _).
  by destruct (Hcomp u Hu).
Qed.

(** X14.  In every state reached from the mounted component in which a
    compressed result is held, the URL in [origURL] has been revoked: the
    cleanup of lines 104-107 revokes the URL of the original as soon as
    [compressedURL] changes, while [origURL] still holds it. *)
Theorem original_url_revoked_with_result (acts : list action) (u : nat) :
  let p := playU mountedPage acts in
  origURL p = Some u ->
  compressedURL (app (sys (comp p))) ≠ None ->
  u ∈ revoked p.
Proof.
  intros p Hu Hres.
  destruct (urls_ok_play acts) as (_ & _ & _ & _ & _ & Hgone & Hc & _).
  apply Hgone; [done|]. intros Hnone. by apply Hres, Hc.
Qed.

(** X15.  No object URL leaks: in every state reached from the mounted
    component, each URL created so far has been revoked or is the one held
    in [origURL] or in [compressedURL]. *)
Theorem object_urls_do_not_leak (acts : list action) (u : nat) :
  let p := playU mountedPage acts in
  (u < created p)%nat ->
  u ∈ revoked p ∨ origURL p = Some u ∨ compURL p = Some u.
Proof.
  intros p Hu. destruct (urls_ok_play acts) as (_ & _ & _ & _ & Hall & _).
  by apply Hall.
Qed.

End URLProperties.

Lemma compressed_url_stays_valid_witness :
  let p := sample_playURLs sample_page
             [Choose (Some img_diag); Resume 0; Finish 0] in
  1%nat ∉ revoked p.
Proof.
  apply (compressed_url_stays_valid sample_decode sample_toBlob sample_size
           svd_diagonal [Choose (Some img_diag); Resume 0; Finish 0] 1).
  reflexivity.
Defined.

Lemma original_url_revoked_with_result_witness :
  let p := sample_playURLs sample_page
             [Choose (Some img_diag); Resume 0; Finish 0] in
  0%nat ∈ revoked p.
Proof.
  apply (original_url_revoked_with_result sample_decode sample_toBlob
           sample_size svd_diagonal
           [Choose (Some img_diag); Resume 0; Finish 0] 0).
  - reflexivity.
  - vm_compute. discriminate.
Defined.

Lemma object_urls_do_not_leak_witness :
  let p := sample_playURLs sample_page
             [Choose (Some img_diag); Resume 0; Finish 0;
              Choose (Some img22)] in
  1%nat ∈ revoked p ∨ origURL p = Some 1%nat ∨ compURL p = Some 1%nat.
Proof.
  apply (object_urls_do_not_leak sample_decode sample_toBlob sample_size
           svd_diagonal
           [Choose (Some img_diag); Resume 0; Finish 0; Choose (Some img22)]
           1).
  vm_compute. lia.
Defined.
